(** * Pokemon tracker: resolver cache, suggestion and type-filter batches,
      display surfaces

    A shallow embedding of [js/script.js], the script the page loads.

    - Strings are sequences of 8-bit code units; [toLowerCase] and [trim]
      act on the ASCII letters and the ASCII white space.
    - Numbers handed to [fetchPokemon] are the integer-valued ones, printed
      in decimal by [String].
    - The DOM is the three elements the script writes to: the search input,
      [pokemonContainer] and [suggestionsContainer], each container with its
      [innerHTML] (a list of nodes) and its [style.display].  A card node
      stands for the markup [renderCard] produces for its [Pokemon]; the
      texts of the messages and of the console lines are constructors.
    - [pokemonCache] is a plain JS object: a property read that misses the
      own properties continues along the prototype chain to
      [Object.prototype].
    - Objects built by [new Pokemon] carry the allocation number that
      identifies them; two objects are the same object when the numbers
      agree.
    - The network is an oracle [net]: the outcome of the [n]-th call of
      [axios.get], given its URL.  Each listener is run in isolation, from
      its event to the end of its last continuation; inside a [Promise.all]
      batch the answers arrive in an order that is a parameter of the model.
      The click listener of a suggestion card is [cardClick]; the hover
      listeners of the filter buttons and the markup of [renderCard] are
      left out. *)

From Stdlib Require Import ZArith Ascii String List Bool Lia.
From stdpp Require Import base option list strings gmap pretty.

Local Open Scope string_scope.
Local Open Scope Z_scope.

(** ** Strings *)

Definition lower_ascii (c : ascii) : ascii :=
  let n := N_of_ascii c in
  if ((65 <=? n) && (n <=? 90))%N then ascii_of_N (n + 32) else c.

Fixpoint toLowerCase (s : string) : string :=
  match s with
  | EmptyString => EmptyString
  | String c s' => String (lower_ascii c) (toLowerCase s')
  end.

Fixpoint startsWith (s p : string) : bool :=
  match p, s with
  | EmptyString, _ => true
  | String _ _, EmptyString => false
  | String a p', String b s' => if Ascii.eqb a b then startsWith s' p' else false
  end.

(** [s.includes(sub)]: [sub] occurs in [s] at some position. *)
Fixpoint includes (s sub : string) : bool :=
  startsWith s sub ||
  match s with
  | EmptyString => false
  | String _ s' => includes s' sub
  end.

Definition is_space (c : ascii) : bool :=
  let n := N_of_ascii c in
  ((n =? 32) || ((9 <=? n) && (n <=? 13)))%N.

Fixpoint trimStart (s : string) : string :=
  match s with
  | EmptyString => EmptyString
  | String c s' => if is_space c then trimStart s' else s
  end.

Fixpoint trimEnd (s : string) : string :=
  match s with
  | EmptyString => EmptyString
  | String c s' =>
      match trimEnd s' with
      | EmptyString => if is_space c then EmptyString else String c EmptyString
      | t => String c t
      end
  end.

Definition trim (s : string) : string := trimEnd (trimStart s).

(** Some character of the string is a capital letter. *)
Fixpoint has_upper (s : string) : bool :=
  match s with
  | EmptyString => false
  | String c s' =>
      let n := N_of_ascii c in
      ((65 <=? n) && (n <=? 90))%N || has_upper s'
  end.

(** JS truthiness of a string: [!query] holds for the empty string only. *)
Definition is_empty (s : string) : bool :=
  match s with EmptyString => true | _ => false end.

(** ** Constants *)

Definition POKEAPI_URL : string := "https://pokeapi.co/api/v2/pokemon/".
Definition TOTAL_POKEMON : Z := 151.
Definition TYPE_URL : string := "https://pokeapi.co/api/v2/type/".

(** [`https://pokeapi.co/api/v2/type/${type}`]. *)
Definition type_url (type : string) : string := TYPE_URL ++ type.

(** The URL of the suggestion index,
    [`${POKEAPI_URL}?limit=${TOTAL_POKEMON}&offset=0`]. *)
Definition index_url : string :=
  POKEAPI_URL ++ "?limit=" ++ pretty TOTAL_POKEMON ++ "&offset=0".

(** ** Remote payloads *)

Record Stat := { stat_name : string; base_stat : Z }.

(** The record the detail endpoint answers with. *)
Record PokemonData := {
  d_id : Z;
  d_name : string;
  d_front_default : string;
  d_types : list string;
  d_stats : list Stat
}.

(** [response.data], by the endpoint that produced it. *)
Inductive Payload :=
| PokemonPayload (d : PokemonData)       (* { id, name, sprites, types, stats } *)
| ListPayload (results : list string)    (* { results: [{name}, ...] } *)
| TypePayload (pokemon : list string).   (* { pokemon: [{pokemon: {name}}, ...] } *)

Inductive AxiosError :=
| ErrResponse (status : Z)   (* error.response is set *)
| ErrRequest                 (* error.request is set, no response *)
| ErrSetup.                  (* neither *)

Inductive AxiosResult :=
| Resolved (data : Payload)
| Failed (e : AxiosError).

Inductive JsError :=
| EAxios (e : AxiosError)
| ETypeError.

(** ** Values and objects *)

Record Pokemon := {
  ref : nat;
  pk_id : Z;
  pk_name : string;
  pk_sprites : string;
  pk_types : list string;
  pk_stats : list Stat;
  pk_hp : Z
}.

(** The fields of a [Pokemon], without its identity. *)
Definition fields (p : Pokemon) : Z * string * string * list string * list Stat * Z :=
  (pk_id p, pk_name p, pk_sprites p, pk_types p, pk_stats p, pk_hp p).

Inductive Value :=
| VUndefined
| VNull
| VPokemon (p : Pokemon)
| VObjectCtor     (* the built-in function [Object] *)
| VObjectProto    (* the object [Object.prototype] *)
| VMethod (name : string).  (* the built-in method [Object.prototype[name]] *)

Definition truthy (v : Value) : bool :=
  match v with
  | VUndefined | VNull => false
  | _ => true
  end.

Definition instanceof_Pokemon (v : Value) : bool :=
  match v with VPokemon _ => true | _ => false end.

Definition as_Pokemon (v : Value) : option Pokemon :=
  match v with VPokemon p => Some p | _ => None end.

(** ** The page *)

Inductive Display := none | flex.

Inductive Message :=
| PleaseType            (* "Please type a Pokemon name or ID to search." *)
| NotFound              (* "Pokemon not found!" *)
| NoneForType (type : string)  (* "No Pokemon found for type: ${type}." *)
| ErrorLoadingType      (* "Error loading Pokemon for this type." *)
| ErrorLoadingSuggestions.  (* "Error loading suggestions." *)

Inductive Node :=
| Card (p : Pokemon)    (* a card holding [p.renderCard()] *)
| Para (m : Message).

Record Container := { innerHTML : list Node; display : Display }.

Inductive Log :=
| WarnNotFound (key : string)
| ErrorStatus (key : string) (status : Z)
| ErrorNoResponse
| ErrorSetup
| ErrorSuggestions
| ErrorType.

Record State := {
  searchInput_value : string;
  pokemonContainer : Container;
  suggestionsContainer : Container;
  pokemonCache : gmap string Pokemon;
  allocated : nat;          (* objects created by [new Pokemon] so far *)
  requests : list string;   (* URLs given to [axios.get] so far, oldest first *)
  console : list Log
}.

Definition set_searchInput (v : string) (st : State) : State :=
  {| searchInput_value := v;
     pokemonContainer := pokemonContainer st;
     suggestionsContainer := suggestionsContainer st;
     pokemonCache := pokemonCache st;
     allocated := allocated st;
     requests := requests st;
     console := console st |}.

Definition set_pokemonContainer (c : Container) (st : State) : State :=
  {| searchInput_value := searchInput_value st;
     pokemonContainer := c;
     suggestionsContainer := suggestionsContainer st;
     pokemonCache := pokemonCache st;
     allocated := allocated st;
     requests := requests st;
     console := console st |}.

Definition set_suggestionsContainer (c : Container) (st : State) : State :=
  {| searchInput_value := searchInput_value st;
     pokemonContainer := pokemonContainer st;
     suggestionsContainer := c;
     pokemonCache := pokemonCache st;
     allocated := allocated st;
     requests := requests st;
     console := console st |}.

Definition set_pokemonCache (m : gmap string Pokemon) (st : State) : State :=
  {| searchInput_value := searchInput_value st;
     pokemonContainer := pokemonContainer st;
     suggestionsContainer := suggestionsContainer st;
     pokemonCache := m;
     allocated := allocated st;
     requests := requests st;
     console := console st |}.

Definition set_allocated (n : nat) (st : State) : State :=
  {| searchInput_value := searchInput_value st;
     pokemonContainer := pokemonContainer st;
     suggestionsContainer := suggestionsContainer st;
     pokemonCache := pokemonCache st;
     allocated := n;
     requests := requests st;
     console := console st |}.

Definition set_requests (l : list string) (st : State) : State :=
  {| searchInput_value := searchInput_value st;
     pokemonContainer := pokemonContainer st;
     suggestionsContainer := suggestionsContainer st;
     pokemonCache := pokemonCache st;
     allocated := allocated st;
     requests := l;
     console := console st |}.

Definition set_console (l : list Log) (st : State) : State :=
  {| searchInput_value := searchInput_value st;
     pokemonContainer := pokemonContainer st;
     suggestionsContainer := suggestionsContainer st;
     pokemonCache := pokemonCache st;
     allocated := allocated st;
     requests := requests st;
     console := l |}.

(** [el.style.display = d], keeping the content. *)
Definition show (d : Display) (c : Container) : Container :=
  {| innerHTML := innerHTML c; display := d |}.

(** [el.innerHTML = nodes], keeping the display. *)
Definition fill (nodes : list Node) (c : Container) : Container :=
  {| innerHTML := nodes; display := display c |}.

(** The page once the [DOMContentLoaded] listener has run. *)
Definition initial : State :=
  {| searchInput_value := "";
     pokemonContainer := {| innerHTML := []; display := none |};
     suggestionsContainer := {| innerHTML := []; display := none |};
     pokemonCache := ∅;
     allocated := 0%nat;
     requests := [];
     console := [] |}.

(** ** Computations: state, exceptions, and awaits that never resume *)

Inductive Completion (A : Type) :=
| Normal (a : A)       (* returned; as a promise: fulfilled *)
| Throw (e : JsError)  (* threw; as a promise: rejected *)
| Suspended.           (* waits on a promise that never settles *)
Arguments Normal {A} a.
Arguments Throw {A} e.
Arguments Suspended {A}.

Definition Js (A : Type) : Type := State -> Completion A * State.

Definition ret {A} (a : A) : Js A := fun st => (Normal a, st).
Definition throw {A} (e : JsError) : Js A := fun st => (Throw e, st).

Definition bind {A B} (m : Js A) (k : A -> Js B) : Js B := fun st =>
  match m st with
  | (Normal a, st') => k a st'
  | (Throw e, st') => (Throw e, st')
  | (Suspended, st') => (Suspended, st')
  end.

Definition try_catch {A} (body : Js A) (handler : JsError -> Js A) : Js A := fun st =>
  match body st with
  | (Throw e, st') => handler e st'
  | r => r
  end.

Definition modify (f : State -> State) : Js unit := fun st => (Normal tt, f st).
Definition gets {A} (f : State -> A) : Js A := fun st => (Normal (f st), st).

Declare Scope js_scope.
Delimit Scope js_scope with js.
Notation "x <- m ;; k" := (bind m (fun x => k))
  (at level 100, m at next level, right associativity) : js_scope.
Notation "m ;; k" := (bind m (fun _ => k))
  (at level 100, right associativity) : js_scope.

Local Open Scope js_scope.

(** ** The [Pokemon] class *)

Definition is_hp (stat : Stat) : bool := String.eqb (stat_name stat) "hp".

(** [new Pokemon(data)].  [data.stats.find(...)] yields [undefined] when no
    stat is named "hp", and reading [.base_stat] of it throws a TypeError; a
    payload of another shape has no [stats] array at all. *)
Definition new_Pokemon (data : Payload) : Js Pokemon := fun st =>
  let st' := set_allocated (S (allocated st)) st in
  match data with
  | PokemonPayload d =>
      match find is_hp (d_stats d) with
      | Some stat =>
          (Normal {| ref := allocated st;
                     pk_id := d_id d;
                     pk_name := d_name d;
                     pk_sprites := d_front_default d;
                     pk_types := d_types d;
                     pk_stats := d_stats d;
                     pk_hp := base_stat stat |}, st')
      | None => (Throw ETypeError, st')
      end
  | _ => (Throw ETypeError, st')
  end.

(** ** The cache object *)

(** The method names of [Object.prototype]; with [constructor] and
    [__proto__] they are all the properties it has. *)
Definition Object_prototype_methods : list string :=
  ["__defineGetter__"; "__defineSetter__"; "hasOwnProperty";
   "__lookupGetter__"; "__lookupSetter__"; "isPrototypeOf";
   "propertyIsEnumerable"; "toString"; "valueOf"; "toLocaleString"].

(** [pokemonCache[key]]: an own property if there is one, else what
    [Object.prototype] has under that name. *)
Definition cache_get (cache : gmap string Pokemon) (key : string) : Value :=
  match cache !! key with
  | Some p => VPokemon p
  | None =>
      if String.eqb key "constructor" then VObjectCtor
      else if String.eqb key "__proto__" then VObjectProto
      else if existsb (String.eqb key) Object_prototype_methods then VMethod key
      else VUndefined
  end.

(** [pokemonCache[key] = pokemon]. *)
Definition cache_set (key : string) (pokemon : Pokemon) : Js unit :=
  modify (fun st => set_pokemonCache (<[key := pokemon]> (pokemonCache st)) st).

Definition log (l : Log) : Js unit :=
  modify (fun st => set_console (console st ++ [l]) st).

(** ** fetchPokemon *)

Inductive Input :=
| Str (s : string)
| Num (n : Z).

(** [String(idOrName)]. *)
Definition String_of (x : Input) : string :=
  match x with
  | Str s => s
  | Num n => pretty n
  end.

Definition cache_key (idOrName : Input) : string := toLowerCase (String_of idOrName).

(** An async call of [fetchPokemon], as its caller holds it: a promise that
    is settled already, or one that waits for the answer to the request
    numbered [req]. *)
Inductive Slot :=
| Done (c : Completion Value)
| Waiting (key : string) (req : nat).

(** The part of [fetchPokemon] that runs before its [await]: the cache
    check and, on a miss, the call of [axios.get]. *)
Definition fetchPokemon_begin (idOrName : Input) (st : State) : Slot * State :=
  let key := cache_key idOrName in
  if truthy (cache_get (pokemonCache st) key) then
    (Done (Normal (cache_get (pokemonCache st) key)), st)
  else
    (Waiting key (length (requests st)),
     set_requests (requests st ++ [POKEAPI_URL ++ key]) st).

(** What the [await] of an [axios.get] promise yields. *)
Definition awaited (r : AxiosResult) : Js Payload :=
  match r with
  | Resolved data => ret data
  | Failed e => throw (EAxios e)
  end.

(** The [catch] block of [fetchPokemon]. *)
Definition fetchPokemon_catch (key : string) (error : JsError) : Js Value :=
  (match error with
   | EAxios (ErrResponse status) =>
       if status =? 404 then log (WarnNotFound key)
       else log (ErrorStatus key status)
   | EAxios ErrRequest => log ErrorNoResponse
   | _ => log ErrorSetup
   end) ;;
  ret VNull.

(** The part of [fetchPokemon] that runs once the request is answered. *)
Definition fetchPokemon_resume (key : string) (response : AxiosResult) : Js Value :=
  try_catch
    (data <- awaited response ;;
     pokemon <- new_Pokemon data ;;
     cache_set key pokemon ;;
     ret (VPokemon pokemon))
    (fetchPokemon_catch key).

(** ** Display *)

(** [pokemon.renderCard()] for each element of the list, in order: a value
    that is not a [Pokemon] has no such method, and the call throws. *)
Fixpoint render_cards (items : list Value) : Completion (list Node) :=
  match items with
  | [] => Normal []
  | VPokemon p :: rest =>
      match render_cards rest with
      | Normal cards => Normal (Card p :: cards)
      | other => other
      end
  | _ :: _ => Throw ETypeError
  end.

(** [displaySuggestions(suggestions)]. *)
Definition displaySuggestions (suggestions : list Value) : Js unit := fun st =>
  let st1 := set_suggestionsContainer (fill [] (suggestionsContainer st)) st in
  if (length suggestions =? 0)%nat then
    (Normal tt, set_suggestionsContainer (show none (suggestionsContainer st1)) st1)
  else
    let st2 := set_suggestionsContainer (show flex (suggestionsContainer st1)) st1 in
    match render_cards suggestions with
    | Normal cards =>
        let st3 := set_suggestionsContainer (fill cards (suggestionsContainer st2)) st2 in
        (Normal tt, set_pokemonContainer (show none (pokemonContainer st3)) st3)
    | Throw e => (Throw e, st2)
    | Suspended => (Suspended, st2)
    end.

(** [displayPokemon(list)], with [items] for the list. *)
Definition displayPokemon (items : list Value) : Js unit := fun st =>
  let st1 := set_pokemonContainer (fill [] (pokemonContainer st)) st in
  match render_cards items with
  | Normal cards =>
      let st2 := set_pokemonContainer (fill cards (pokemonContainer st1)) st1 in
      let st3 := set_pokemonContainer (show flex (pokemonContainer st2)) st2 in
      (Normal tt, set_suggestionsContainer (show none (suggestionsContainer st3)) st3)
  | Throw e => (Throw e, st1)
  | Suspended => (Suspended, st1)
  end.

(** [resetSearch()]. *)
Definition resetSearch (st : State) : State :=
  let st1 := set_searchInput "" st in
  let st2 := set_pokemonContainer (fill [] (pokemonContainer st1)) st1 in
  let st3 := set_pokemonContainer (show none (pokemonContainer st2)) st2 in
  let st4 := set_suggestionsContainer (fill [] (suggestionsContainer st3)) st3 in
  set_suggestionsContainer (show none (suggestionsContainer st4)) st4.

Definition hide_suggestions : Js unit :=
  modify (fun st =>
    let st1 := set_suggestionsContainer (fill [] (suggestionsContainer st)) st in
    set_suggestionsContainer (show none (suggestionsContainer st1)) st1).

Definition message_in_results (m : Message) : Js unit :=
  modify (fun st =>
    let st1 := set_pokemonContainer (fill [Para m] (pokemonContainer st)) st in
    set_pokemonContainer (show flex (pokemonContainer st1)) st1).

(** [array.filter((x, index) => keep x index)], counting from [index]. *)
Fixpoint filter_index {A} (keep : A -> Z -> bool) (index : Z) (l : list A) : list A :=
  match l with
  | [] => []
  | x :: rest =>
      if keep x index then x :: filter_index keep (index + 1) rest
      else filter_index keep (index + 1) rest
  end.

(** [data.pokemon.map(p => p.pokemon.name).filter((name, index) => index < TOTAL_POKEMON)]. *)
Definition pokemonNamesForType (members : list string) : list string :=
  filter_index (fun _ index => index <? TOTAL_POKEMON) 0 members.

(** [data.results.filter(pokemon =>
      pokemon.name.toLowerCase().includes(query.toLowerCase()))]. *)
Definition matchingNames (query : string) (results : list string) : list string :=
  List.filter (fun name => includes (toLowerCase name) (toLowerCase query)) results.

(** ** Promise.all *)

(** The reason of the first rejected slot, if any. *)
Fixpoint first_rejected (slots : list Slot) : option JsError :=
  match slots with
  | [] => None
  | Done (Throw e) :: _ => Some e
  | _ :: rest => first_rejected rest
  end.

(** The values of the slots, if all are fulfilled. *)
Fixpoint all_fulfilled (slots : list Slot) : option (list Value) :=
  match slots with
  | [] => Some []
  | Done (Normal v) :: rest =>
      match all_fulfilled rest with
      | Some vs => Some (v :: vs)
      | None => None
      end
  | _ :: _ => None
  end.

(** The promise of [Promise.all] over the slots: rejected as soon as one
    input is rejected, fulfilled once every input is, pending ([None])
    otherwise. *)
Definition join (slots : list Slot) : option (Completion (list Value)) :=
  match first_rejected slots with
  | Some e => Some (Throw e)
  | None =>
      match all_fulfilled slots with
      | Some vs => Some (Normal vs)
      | None => None
      end
  end.

Record Batch := {
  slots : list Slot;
  joined : option (Completion (list Value))  (* [None]: still pending *)
}.

Definition is_waiting (s : Slot) : bool :=
  match s with Waiting _ _ => true | Done _ => false end.

(** ** Notions used in the statements *)

Definition Fields : Type := Z * string * string * list string * list Stat * Z.

(** The entity an answer describes: a detail record with a stat named "hp". *)
Definition answer_fields (r : AxiosResult) : option Fields :=
  match r with
  | Resolved (PokemonPayload d) =>
      match find is_hp (d_stats d) with
      | Some stat =>
          Some (d_id d, d_name d, d_front_default d, d_types d, d_stats d, base_stat stat)
      | None => None
      end
  | _ => None
  end.

Definition detail_url (idOrName : Input) : string := POKEAPI_URL ++ cache_key idOrName.

(** [pokemonCache[key]] is falsy: the key is not cached. *)
Definition uncached (st : State) (idOrName : Input) : Prop :=
  truthy (cache_get (pokemonCache st) (cache_key idOrName)) = false.

Definition results_visible (st : State) : Prop := display (pokemonContainer st) = flex.
Definition suggestions_visible (st : State) : Prop := display (suggestionsContainer st) = flex.
Definition idle (st : State) : Prop :=
  display (pokemonContainer st) = none /\ display (suggestionsContainer st) = none.

(** The page is the same in both states. *)
Definition same_page (st st' : State) : Prop :=
  searchInput_value st' = searchInput_value st /\
  pokemonContainer st' = pokemonContainer st /\
  suggestionsContainer st' = suggestionsContainer st.

Section App.

(** The outcome of the [n]-th call of [axios.get], made with [url]. *)
Variable net : nat -> string -> AxiosResult.

(** [await axios.get(url)]. *)
Definition axios_get (url : string) : Js Payload := fun st =>
  awaited (net (length (requests st)) url) (set_requests (requests st ++ [url]) st).

(** [await fetchPokemon(idOrName)], with nothing else running meanwhile. *)
Definition fetchPokemon (idOrName : Input) : Js Value := fun st =>
  match fetchPokemon_begin idOrName st with
  | (Done c, st1) => (c, st1)
  | (Waiting key req, st1) =>
      fetchPokemon_resume key (net req (POKEAPI_URL ++ key)) st1
  end.

(** [names.map(name => fetchPokemon(name))]: every call runs up to its
    [await] before the next one starts. *)
Fixpoint launch (names : list string) (st : State) : list Slot * State :=
  match names with
  | [] => ([], st)
  | name :: rest =>
      let (slot, st1) := fetchPokemon_begin (Str name) st in
      let (others, st2) := launch rest st1 in
      (slot :: others, st2)
  end.

(** The answer to the request of slot [i] arrives: that call of
    [fetchPokemon] runs to its end, and [Promise.all] takes note unless it
    is settled already. *)
Definition deliver (i : nat) (b : Batch) (st : State) : Batch * State :=
  match slots b !! i with
  | Some (Waiting key req) =>
      let (c, st') := fetchPokemon_resume key (net req (POKEAPI_URL ++ key)) st in
      let slots' := <[i := Done c]> (slots b) in
      ({| slots := slots';
          joined := match joined b with
                    | Some j => Some j
                    | None => join slots'
                    end |}, st')
  | _ => (b, st)
  end.

(** Answers arrive in the given order until [Promise.all] is settled. *)
Fixpoint arrivals (order : list nat) (b : Batch) (st : State) : Batch * State :=
  match joined b, order with
  | Some _, _ => (b, st)
  | None, [] => (b, st)
  | None, i :: rest =>
      let (b', st') := deliver i b st in
      arrivals rest b' st'
  end.

(** The batch as [Promise.all] sees it right after the calls are launched. *)
Definition batch_of (names : list string) (st : State) : Batch * State :=
  let (slots0, st1) := launch names st in
  ({| slots := slots0; joined := join slots0 |}, st1).

(** The batch when the handler that awaits it continues (or for good, if it
    never does).  The answers listed in [order] arrive first, in that order;
    those of the slots not listed follow in slot order. *)
Definition batch_run (order : list nat) (names : list string) (st : State) : Batch * State :=
  let (b0, st1) := batch_of names st in
  arrivals (order ++ seq 0 (length names)) b0 st1.

(** [await Promise.all(names.map(name => fetchPokemon(name)))]. *)
Definition Promise_all (order : list nat) (names : list string) : Js (list Value) := fun st =>
  let (b, st') := batch_run order names st in
  match joined b with
  | Some c => (c, st')
  | None => (Suspended, st')
  end.

Definition results_of (data : Payload) : Js (list string) :=
  match data with
  | ListPayload results => ret results
  | _ => throw ETypeError
  end.

Definition pokemon_of (data : Payload) : Js (list string) :=
  match data with
  | TypePayload members => ret members
  | _ => throw ETypeError
  end.

(** The list [fetchSuggestions] hands to [displaySuggestions]: the index,
    the names that match, their details, and of those the ones that are
    [Pokemon] objects. *)
Definition validSuggestions (order : list nat) (query : string) : Js (list Value) :=
  data <- axios_get index_url ;;
  results <- results_of data ;;
  detailedSuggestions <- Promise_all order (matchingNames query results) ;;
  ret (List.filter instanceof_Pokemon detailedSuggestions).

(** [fetchSuggestions(query)]. *)
Definition fetchSuggestions (order : list nat) (query : string) : Js unit :=
  if is_empty query then hide_suggestions
  else
    try_catch
      (suggestions <- validSuggestions order query ;;
       displaySuggestions suggestions)
      (fun error =>
         log ErrorSuggestions ;;
         modify (fun st =>
           let st1 := set_suggestionsContainer
                        (fill [Para ErrorLoadingSuggestions] (suggestionsContainer st)) st in
           set_suggestionsContainer (show flex (suggestionsContainer st1)) st1)).

(** [searchPokemons(searchQuery)]. *)
Definition searchPokemons (searchQuery : string) : Js unit :=
  if is_empty searchQuery then
    message_in_results PleaseType ;;
    hide_suggestions
  else
    pokemon <- fetchPokemon (Str searchQuery) ;;
    (if truthy pokemon then displayPokemon [pokemon]
     else message_in_results NotFound) ;;
    hide_suggestions.

(** The click listener of a type filter button. *)
Definition filterClick (order : list nat) (type : string) : Js unit :=
  modify (set_searchInput "") ;;
  hide_suggestions ;;
  try_catch
    (data <- axios_get (type_url type) ;;
     members <- pokemon_of data ;;
     detailedPokemons <- Promise_all order (pokemonNamesForType members) ;;
     let filteredPokemons := List.filter instanceof_Pokemon detailedPokemons in
     if (0 <? length filteredPokemons)%nat then displayPokemon filteredPokemons
     else message_in_results (NoneForType type))
    (fun error =>
       log ErrorType ;;
       message_in_results ErrorLoadingType).

(** ** Events *)

Inductive Event :=
| InputEvent (value : string) (order : list nat)  (* the user edits the search box *)
| SearchClick
| EnterKey
| FilterClick (type : string) (order : list nat)
| RefreshClick.

Definition listener (ev : Event) : Js unit :=
  match ev with
  | InputEvent value order =>
      modify (set_searchInput value) ;;
      fetchSuggestions order (trim value)
  | SearchClick | EnterKey =>
      searchQuery <- gets (fun st => toLowerCase (trim (searchInput_value st))) ;;
      searchPokemons searchQuery
  | FilterClick type order => filterClick order type
  | RefreshClick => modify resetSearch
  end.

Definition handle (st : State) (ev : Event) : State := snd (listener ev st).

Definition run (evs : list Event) (st : State) : State := foldl handle st evs.

End App.

(** The names on the cards of a container, in order. *)
Definition card_names (c : Container) : list string :=
  omap (fun node => match node with Card p => Some (pk_name p) | Para _ => None end)
       (innerHTML c).

(** The two containers are not both shown. *)
Definition at_most_one (st : State) : Prop :=
  ~ (results_visible st /\ suggestions_visible st).

(** The event is not a keystroke whose index request goes wrong. *)
Definition index_arrives (net : nat -> string -> AxiosResult) (st : State) (ev : Event) : Prop :=
  match ev with
  | InputEvent value _ =>
      is_empty (trim value) = true \/
      exists results, net (length (requests st)) index_url = Resolved (ListPayload results)
  | _ => True
  end.

(** ** Case-insensitive containment, as the specification words it *)

Definition is_upper (c : ascii) : Prop := (65 <= N_of_ascii c <= 90)%N.

(** Two characters are the same letter when they are equal or one is the
    capital of the other. *)
Definition same_letter (a b : ascii) : Prop :=
  a = b \/
  (is_upper a /\ N_of_ascii b = N_of_ascii a + 32)%N \/
  (is_upper b /\ N_of_ascii a = N_of_ascii b + 32)%N.

Fixpoint equal_ignoring_case (s t : string) : Prop :=
  match s, t with
  | EmptyString, EmptyString => True
  | String a s', String b t' => same_letter a b /\ equal_ignoring_case s' t'
  | _, _ => False
  end.

(** [name] contains [query] as a case-insensitive substring. *)
Definition contains_ignoring_case (name query : string) : Prop :=
  exists before middle after,
    name = before ++ middle ++ after /\ equal_ignoring_case middle query.

(** ** The outcome of a batch, slot by slot *)

(** The slots a batch starts with, from the cache and the number of
    requests made before it: a cached name is settled at once, any other
    name waits for a request of its own. *)
Fixpoint launched (cache : gmap string Pokemon) (req : nat) (names : list string) : list Slot :=
  match names with
  | [] => []
  | name :: rest =>
      let key := toLowerCase name in
      if truthy (cache_get cache key)
      then Done (Normal (cache_get cache key)) :: launched cache req rest
      else Waiting key req :: launched cache (S req) rest
  end.

(** The URLs the waiting slots have requested, in slot order. *)
Fixpoint requested (slots : list Slot) : list string :=
  match slots with
  | [] => []
  | Waiting key _ :: rest => (POKEAPI_URL ++ key) :: requested rest
  | Done _ :: rest => requested rest
  end.

Definition value_fields (v : Value) : option Fields := fields <$> as_Pokemon v.

Section Outcome.

Variable net : nat -> string -> AxiosResult.

(** The entity a slot ends with, if any: the cached one, or the one its
    answer describes. *)
Definition slot_fields (s : Slot) : option Fields :=
  match s with
  | Done (Normal v) => value_fields v
  | Done _ => None
  | Waiting key req => answer_fields (net req (POKEAPI_URL ++ key))
  end.

(** The entities a batch over [names] ends with, in the order of [names]. *)
Definition batch_fields (cache : gmap string Pokemon) (req : nat) (names : list string)
  : list Fields :=
  omap slot_fields (launched cache req names).

(** A slot is never rejected and never stuck: it waits or it is fulfilled. *)
Definition well_slot (s : Slot) : Prop :=
  match s with
  | Done (Normal _) | Waiting _ _ => True
  | Done _ => False
  end.

(** [v] is the value the call that started as slot [s0] ends with: the
    cached value; or, for a call that had to ask, a [Pokemon] with the
    fields of the answer, and [null] when the answer describes no entity. *)
Definition item_result (s0 : Slot) (v : Value) : Prop :=
  match s0 with
  | Done c => c = Normal v
  | Waiting key req =>
      match answer_fields (net req (POKEAPI_URL ++ key)) with
      | Some f => value_fields v = Some f
      | None => v = VNull
      end
  end.

(** [s] is the slot [s0] later on: unchanged, or fulfilled from the answer
    to its request. *)
Definition settled_from (s0 s : Slot) : Prop :=
  s = s0 \/
  exists v, is_waiting s0 = true /\ s = Done (Normal v) /\ item_result s0 v.

(** The invariant of a batch whose slots started as [slots0]. *)
Record batch_inv (slots0 : list Slot) (b : Batch) : Prop := {
  inv_from : Forall2 settled_from slots0 (slots b);
  inv_well : Forall well_slot (slots b);
  inv_joined : joined b = join (slots b)
}.

End Outcome.

(** ** A sample catalog *)

Definition entry (id : Z) (name type : string) (stats : list Stat) : PokemonData :=
  {| d_id := id;
     d_name := name;
     d_front_default := "sprites/pokemon/" ++ pretty id ++ ".png";
     d_types := [type];
     d_stats := stats |}.

Definition pikachu : PokemonData :=
  entry 25 "pikachu" "electric"
    [ {| stat_name := "hp"; base_stat := 35 |};
      {| stat_name := "attack"; base_stat := 55 |};
      {| stat_name := "speed"; base_stat := 90 |} ].

Definition charmander : PokemonData :=
  entry 4 "charmander" "fire"
    [ {| stat_name := "attack"; base_stat := 52 |};
      {| stat_name := "hp"; base_stat := 39 |} ].

Definition charmeleon : PokemonData :=
  entry 5 "charmeleon" "fire" [ {| stat_name := "hp"; base_stat := 58 |} ].

Definition charizard : PokemonData :=
  entry 6 "charizard" "fire" [ {| stat_name := "hp"; base_stat := 78 |} ].

(** A record whose stats have no "hp". *)
Definition missingno : PokemonData :=
  entry 0 "missingno" "normal" [ {| stat_name := "attack"; base_stat := 136 |} ].

(** The detail endpoint: pikachu answers to its id and to its name. *)
Definition details : list (string * PokemonData) :=
  [ ("25", pikachu); ("pikachu", pikachu);
    ("charmander", charmander); ("charmeleon", charmeleon);
    ("charizard", charizard); ("missingno", missingno) ].

Definition sample_index : list string :=
  ["bulbasaur"; "charmander"; "squirtle"; "Charmeleon"; "pikachu";
   "charizard"; "missingno"; "raichu"].

(** Two hundred member names for the type "fire"; the detail endpoint knows
    the first three. *)
Definition fire_members : list string :=
  ["charmander"; "charmeleon"; "charizard"] ++
  map (fun n => "fire-" ++ pretty n) (seq 4 197).

Definition catalog (n : nat) (url : string) : AxiosResult :=
  match find (fun kv => String.eqb url (POKEAPI_URL ++ fst kv)) details with
  | Some kv => Resolved (PokemonPayload (snd kv))
  | None =>
      if String.eqb url index_url then Resolved (ListPayload sample_index)
      else if String.eqb url (type_url "fire") then Resolved (TypePayload fire_members)
      else Failed (ErrResponse 404)
  end.

(** The same catalog while the listing endpoint does not answer. *)
Definition catalog_without_index (n : nat) (url : string) : AxiosResult :=
  if String.eqb url index_url then Failed ErrRequest else catalog n url.

(** The page after the user has typed "pikachu" and clicked the search
    button: the results show the card. *)
Definition after_search : State :=
  run catalog [InputEvent "pikachu" []; SearchClick] initial.

(** The same two steps, and then one more letter typed, all while the
    listing endpoint does not answer. *)
Definition after_failed_index : State :=
  run catalog_without_index
    [InputEvent "pikachu" []; SearchClick; InputEvent "pikachuu" []] initial.

(** ** Further notions: blank input, the names a batch asks for *)

(** Every character of the string is white space. *)
Fixpoint blank (s : string) : bool :=
  match s with
  | EmptyString => true
  | String c s' => is_space c && blank s'
  end.

(** The URLs a batch over [names] requests: one for each name that is not
    cached when the batch starts, in the order of the names. *)
Definition uncached_urls (cache : gmap string Pokemon) (names : list string) : list string :=
  map (fun name => POKEAPI_URL ++ toLowerCase name)
      (List.filter (fun name => negb (truthy (cache_get cache (toLowerCase name)))) names).

(** The key the search button looks up: the input trimmed and in lower
    case; and the URL of its detail record. *)
Definition search_key (st : State) : string := toLowerCase (trim (searchInput_value st)).
Definition search_url (st : State) : string := POKEAPI_URL ++ search_key st.

(** ** The click listener of a suggestion card, and whole sessions *)

(** What [searchPokemons] does once [fetchPokemon] has answered. *)
Definition searchPokemons_rest (pokemon : Value) : Js unit :=
  (if truthy pokemon then displayPokemon [pokemon]
   else message_in_results NotFound) ;;
  hide_suggestions.

(** What the user does: an event of the page, or a click on the [i]-th
    node of the suggestions container. *)
Inductive Action :=
| Fire (ev : Event)
| CardClick (i : nat).

Section Card.

Variable net : nat -> string -> AxiosResult.

(** The click listener [displaySuggestions] puts on the card of [pokemon].
    It does not await [searchPokemons]: the call runs up to its [await],
    the listener hides the suggestions, and the search continues after. *)
Definition cardClick (pokemon : Pokemon) (st : State) : State :=
  let st1 := set_searchInput (pk_name pokemon) st in
  if is_empty (pk_name pokemon) then
    let st2 := snd ((message_in_results PleaseType ;; hide_suggestions) st1) in
    snd (hide_suggestions st2)
  else
    let (slot, st2) := fetchPokemon_begin (Str (pk_name pokemon)) st1 in
    let st3 := snd (hide_suggestions st2) in
    let (c, st4) :=
      match slot with
      | Done c => (c, st3)
      | Waiting key req => fetchPokemon_resume key (net req (POKEAPI_URL ++ key)) st3
      end in
    match c with
    | Normal found => snd (searchPokemons_rest found st4)
    | _ => st4
    end.

Definition act (st : State) (a : Action) : State :=
  match a with
  | Fire ev => handle net st ev
  | CardClick i =>
      match innerHTML (suggestionsContainer st) !! i with
      | Some (Card pokemon) => cardClick pokemon st
      | _ => st
      end
  end.

(** The page after the user's actions, from the page as loaded. *)
Definition session (actions : list Action) : State := foldl act initial actions.

End Card.

(** ** Invariants of the cache and of the page *)

(** The [hp] of a [Pokemon] is the base stat of the first of its stats
    named "hp". *)
Definition hp_ok (p : Pokemon) : Prop :=
  base_stat <$> find is_hp (pk_stats p) = Some (pk_hp p).

(** [p] is a well-formed object that exists in [st]. *)
Definition known (st : State) (p : Pokemon) : Prop :=
  hp_ok p /\ (ref p < allocated st)%nat.

(** A key under which [fetchPokemon] may store: no capital letter, and not
    a name that [Object.prototype] answers to. *)
Definition good_key (key : string) : Prop :=
  has_upper key = false /\ key <> "constructor" /\ key <> "__proto__".

Definition value_ok (st : State) (v : Value) : Prop :=
  match v with VPokemon p => known st p | _ => True end.

Definition node_ok (st : State) (node : Node) : Prop :=
  match node with Card p => known st p | Para _ => True end.

Record state_inv (st : State) : Prop := {
  inv_keys : forall key p, pokemonCache st !! key = Some p -> good_key key /\ known st p;
  inv_distinct : forall k1 k2 p1 p2,
    pokemonCache st !! k1 = Some p1 -> pokemonCache st !! k2 = Some p2 ->
    ref p1 = ref p2 -> k1 = k2;
  inv_results : Forall (node_ok st) (innerHTML (pokemonContainer st));
  inv_suggestions : Forall (node_ok st) (innerHTML (suggestionsContainer st))
}.

(** From [st] to [st'] the cache has kept its entries and no object has
    been forgotten. *)
Definition grows (st st' : State) : Prop :=
  pokemonCache st ⊆ pokemonCache st' /\ (allocated st <= allocated st')%nat.

(** A slot of a batch that started in [st0], seen in [st]. *)
Definition slot_ok (st0 st : State) (name : string) (s : Slot) : Prop :=
  match s with
  | Done (Normal (VPokemon p)) =>
      known st p /\ is_Some (pokemonCache st !! toLowerCase name)
  | Done (Normal _) => True
  | Done _ => False
  | Waiting key _ =>
      key = toLowerCase name /\ good_key key /\ pokemonCache st0 !! key = None
  end.

Definition batch_ok (st0 : State) (names : list string) (b : Batch) (st : State) : Prop :=
  state_inv st /\ grows st0 st /\ same_page st0 st /\
  Forall2 (slot_ok st0 st) names (slots b).

(** [p] has a card on the page. *)
Definition shown (st : State) (p : Pokemon) : Prop :=
  Card p ∈ innerHTML (pokemonContainer st) \/ Card p ∈ innerHTML (suggestionsContainer st).

(** The listing endpoint always answers with a list. *)
Definition index_always_arrives (net : nat -> string -> AxiosResult) : Prop :=
  forall n, exists results, net n index_url = Resolved (ListPayload results).

(** The object the first resolution of pikachu creates when [r] objects
    exist already. *)
Definition pikachu_object (r : nat) : Pokemon :=
  {| ref := r;
     pk_id := d_id pikachu;
     pk_name := d_name pikachu;
     pk_sprites := d_front_default pikachu;
     pk_types := d_types pikachu;
     pk_stats := d_stats pikachu;
     pk_hp := 35 |}.

(** Two sessions on the sample catalog: a search for "pikachu"; and a
    search for "25" followed by one for "pikachu". *)
Definition searched_pikachu : list Action :=
  [Fire (InputEvent "pikachu" []); Fire SearchClick].

Definition searched_both : list Action :=
  [Fire (InputEvent "25" []); Fire SearchClick;
   Fire (InputEvent "pikachu" []); Fire SearchClick].

(** * Properties *)

Section Keys.

Lemma lower_ascii_code c :
  N_of_ascii (lower_ascii c) =
    (if ((65 <=? N_of_ascii c) && (N_of_ascii c <=? 90))%N
     then N_of_ascii c + 32 else N_of_ascii c)%N.
Proof.
  unfold lower_ascii.
  destruct ((65 <=? N_of_ascii c) && (N_of_ascii c <=? 90))%N eqn:H; [|done].
  apply andb_true_iff in H as [H1 H2].
  apply N.leb_le in H1, H2.
  apply N_ascii_embedding. lia.
Qed.

(** A normalized key has no capital letter. *)
Lemma has_upper_toLowerCase s : has_upper (toLowerCase s) = false.
Proof.
  induction s as [|c s IH]; [done|].
  cbn [toLowerCase has_upper]. rewrite IH, orb_false_r, lower_ascii_code.
  destruct ((65 <=? N_of_ascii c) && (N_of_ascii c <=? 90))%N eqn:H; [|done].
  apply andb_true_iff in H as [H1 H2]. apply N.leb_le in H1, H2.
  apply andb_false_iff. right. apply N.leb_gt. lia.
Qed.

(** So it is none of the method names of [Object.prototype], which all
    have one. *)
Lemma lower_key_not_a_method key :
  has_upper key = false -> existsb (String.eqb key) Object_prototype_methods = false.
Proof.
  intros Hlow. destruct (existsb _ _) eqn:E; [|done].
  apply existsb_exists in E as (name & Hin & Heq).
  apply String.eqb_eq in Heq as <-.
  assert (Hall : Forall (fun name => has_upper name = true) Object_prototype_methods)
    by (repeat constructor).
  rewrite Forall_forall in Hall. apply list_elem_of_In in Hin.
  specialize (Hall _ Hin). congruence.
Qed.

Lemma cache_key_not_a_method x :
  existsb (String.eqb (cache_key x)) Object_prototype_methods = false.
Proof. apply lower_key_not_a_method, has_upper_toLowerCase. Qed.

End Keys.

Section Resolver.

Variable net : nat -> string -> AxiosResult.

Lemma same_page_refl st : same_page st st.
Proof. by repeat split. Qed.

Lemma same_page_trans st1 st2 st3 :
  same_page st1 st2 -> same_page st2 st3 -> same_page st1 st3.
Proof.
  intros (a1 & a2 & a3) (b1 & b2 & b3).
  repeat split; congruence.
Qed.

(** What the continuation of [fetchPokemon] does, by the answer it gets. *)
Lemma fetchPokemon_resume_spec key r st :
  match answer_fields r with
  | Some f =>
      exists p,
        fetchPokemon_resume key r st =
          (Normal (VPokemon p),
           set_pokemonCache (<[key := p]> (pokemonCache st))
             (set_allocated (S (allocated st)) st)) /\
        fields p = f /\ ref p = allocated st
  | None =>
      exists st',
        fetchPokemon_resume key r st = (Normal VNull, st') /\
        pokemonCache st' = pokemonCache st /\
        requests st' = requests st /\
        same_page st st'
  end.
Proof.
  destruct r as [[d | results | members] | e]; cbn.
  - destruct (find is_hp (d_stats d)) as [stat|] eqn:Hfind.
    + eexists. unfold fetchPokemon_resume, try_catch, bind, new_Pokemon; cbn.
      rewrite Hfind. cbn. repeat split.
    + eexists. unfold fetchPokemon_resume, try_catch, bind, new_Pokemon; cbn.
      rewrite Hfind. cbn. repeat split.
  - eexists. cbn. repeat split.
  - eexists. cbn. repeat split.
  - destruct e as [status | | ]; cbn.
    + unfold fetchPokemon_resume, fetchPokemon_catch, try_catch, bind; cbn.
      destruct (status =? 404); eexists; cbn; repeat split.
    + eexists. cbn. repeat split.
    + eexists. cbn. repeat split.
Qed.

(** The continuation of [fetchPokemon] returns: its promise is never
    rejected and never left pending. *)
Lemma fetchPokemon_resume_normal key r st :
  exists v st',
    fetchPokemon_resume key r st = (Normal v, st') /\
    requests st' = requests st /\ same_page st st' /\
    (v = VNull \/ exists p, v = VPokemon p).
Proof.
  pose proof (fetchPokemon_resume_spec key r st) as H.
  destruct (answer_fields r).
  - destruct H as (p & -> & _ & _). do 2 eexists. repeat split. right. by eexists.
  - destruct H as (st' & -> & _ & Hreq & Hpage). do 2 eexists. repeat split; try apply Hpage; auto.
Qed.

Lemma fetchPokemon_uncached x st :
  uncached st x ->
  fetchPokemon net x st =
    fetchPokemon_resume (cache_key x) (net (length (requests st)) (detail_url x))
      (set_requests (requests st ++ [detail_url x]) st).
Proof.
  unfold uncached, fetchPokemon, fetchPokemon_begin. intros ->. reflexivity.
Qed.

Lemma fetchPokemon_cached x st :
  truthy (cache_get (pokemonCache st) (cache_key x)) = true ->
  fetchPokemon net x st = (Normal (cache_get (pokemonCache st) (cache_key x)), st).
Proof.
  unfold fetchPokemon, fetchPokemon_begin. intros ->. reflexivity.
Qed.

Lemma cache_get_own cache key p :
  cache !! key = Some p -> cache_get cache key = VPokemon p.
Proof. unfold cache_get. by intros ->. Qed.

(** [fetchPokemon] returns, whatever the input and the answer. *)
Lemma fetchPokemon_normal x st :
  exists v st', fetchPokemon net x st = (Normal v, st') /\ same_page st st'.
Proof.
  destruct (truthy (cache_get (pokemonCache st) (cache_key x))) eqn:Hc.
  - rewrite fetchPokemon_cached by done. do 2 eexists. split; [done | apply same_page_refl].
  - rewrite fetchPokemon_uncached by done.
    edestruct fetchPokemon_resume_normal as (v & st' & -> & _ & Hp & _).
    do 2 eexists. split; [done|]. exact Hp.
Qed.

(** C2: for a key the catalog resolves to a well-formed record and that is
    not cached yet, resolving it twice in a row returns the same [Pokemon]
    object both times; the second call leaves the state as it is, so one
    request in all is issued. *)
Theorem C2_fetchPokemon_memoized (K : Input) (st : State) (f : Fields) :
  uncached st K ->
  answer_fields (net (length (requests st)) (detail_url K)) = Some f ->
  exists p st1,
    fetchPokemon net K st = (Normal (VPokemon p), st1) /\
    fetchPokemon net K st1 = (Normal (VPokemon p), st1) /\
    fields p = f /\
    pokemonCache st1 !! cache_key K = Some p /\
    requests st1 = (requests st ++ [detail_url K])%list.
Proof.
  intros Hun Hans.
  rewrite (fetchPokemon_uncached K st Hun).
  pose proof (fetchPokemon_resume_spec (cache_key K)
    (net (length (requests st)) (detail_url K))
    (set_requests (requests st ++ [detail_url K]) st)) as H.
  rewrite Hans in H. destruct H as (p & Heq & Hf & _).
  rewrite Heq.
  match goal with |- context [(Normal (VPokemon p), ?s)] => set (st1 := s) end.
  assert (Hlk : pokemonCache st1 !! cache_key K = Some p)
    by (subst st1; cbn; apply lookup_insert_eq).
  exists p, st1. split; [reflexivity|].
  repeat split; try done.
  rewrite fetchPokemon_cached; rewrite (cache_get_own _ _ _ Hlk); done.
Qed.

(** C3: when the key is not cached and the answer to its request is a
    failure (an error status, no response, or a record without a stat named
    "hp"), [fetchPokemon] returns [null], the cache is as before, and
    resolving the same key again issues a new request. *)
Theorem C3_failures_not_cached (K : Input) (st : State) :
  uncached st K ->
  answer_fields (net (length (requests st)) (detail_url K)) = None ->
  exists st1,
    fetchPokemon net K st = (Normal VNull, st1) /\
    pokemonCache st1 = pokemonCache st /\
    requests st1 = (requests st ++ [detail_url K])%list /\
    requests (snd (fetchPokemon net K st1)) = (requests st1 ++ [detail_url K])%list.
Proof.
  intros Hun Hans.
  rewrite (fetchPokemon_uncached K st Hun).
  pose proof (fetchPokemon_resume_spec (cache_key K)
    (net (length (requests st)) (detail_url K))
    (set_requests (requests st ++ [detail_url K]) st)) as H.
  rewrite Hans in H. destruct H as (st1 & Heq & Hcache & Hreq & _).
  rewrite Heq. exists st1. cbn in Hcache, Hreq.
  repeat split; try done.
  assert (Hun1 : uncached st1 K) by (unfold uncached; rewrite Hcache; exact Hun).
  rewrite (fetchPokemon_uncached K st1 Hun1).
  edestruct fetchPokemon_resume_normal as (v & st2 & -> & Hreq2 & _).
  cbn. rewrite Hreq2. reflexivity.
Qed.

(** C8: two keys with different normal forms, neither cached, that the
    catalog resolves to the same record, end in two cache slots; the slots
    hold two objects with equal fields and different identities, and each
    key cost one request. *)
Theorem C8_key_forms_not_unified (k1 k2 : Input) (st : State) (f : Fields) :
  cache_key k1 <> cache_key k2 ->
  uncached st k1 ->
  uncached st k2 ->
  answer_fields (net (length (requests st)) (detail_url k1)) = Some f ->
  answer_fields (net (S (length (requests st))) (detail_url k2)) = Some f ->
  exists p1 p2 st1 st2,
    fetchPokemon net k1 st = (Normal (VPokemon p1), st1) /\
    fetchPokemon net k2 st1 = (Normal (VPokemon p2), st2) /\
    pokemonCache st2 !! cache_key k1 = Some p1 /\
    pokemonCache st2 !! cache_key k2 = Some p2 /\
    fields p1 = fields p2 /\
    ref p1 <> ref p2 /\
    requests st2 = (requests st ++ [detail_url k1; detail_url k2])%list.
Proof.
  intros Hne Hun1 Hun2 Ha1 Ha2.
  rewrite (fetchPokemon_uncached k1 st Hun1).
  pose proof (fetchPokemon_resume_spec (cache_key k1)
    (net (length (requests st)) (detail_url k1))
    (set_requests (requests st ++ [detail_url k1]) st)) as H1.
  rewrite Ha1 in H1. destruct H1 as (p1 & Heq1 & Hf1 & Hr1).
  rewrite Heq1.
  set (st1 := set_pokemonCache _ _).
  assert (Hun2' : uncached st1 k2).
  { unfold uncached, cache_get in *. subst st1; cbn.
    rewrite lookup_insert_ne by done. exact Hun2. }
  pose proof (fetchPokemon_resume_spec (cache_key k2)
    (net (length (requests st1)) (detail_url k2))
    (set_requests (requests st1 ++ [detail_url k2]) st1)) as H2.
  assert (Hlen : length (requests st1) = S (length (requests st))).
  { subst st1; cbn. rewrite length_app. cbn. lia. }
  rewrite Hlen, Ha2 in H2. destruct H2 as (p2 & Heq2 & Hf2 & Hr2).
  exists p1, p2, st1. eexists. split; [reflexivity|].
  rewrite (fetchPokemon_uncached k2 st1 Hun2'), Hlen, Heq2.
  split; [reflexivity|].
  cbn. repeat split.
  - rewrite lookup_insert_ne by done. apply lookup_insert_eq.
  - apply lookup_insert_eq.
  - congruence.
  - rewrite Hr1, Hr2. cbn. lia.
  - by rewrite <- app_assoc.
Qed.

(** C10, at the input "constructor": [pokemonCache["constructor"]] finds
    [Object.prototype.constructor], a truthy value; [fetchPokemon] returns
    it, the built-in [Object], which is neither a [Pokemon] nor [null], and
    sends no request. *)
Theorem C10_fetchPokemon_constructor :
  fetchPokemon net (Str "constructor") initial = (Normal VObjectCtor, initial).
Proof. reflexivity. Qed.

(** Away from the two inherited property names a key can be,
    [fetchPokemon] returns a [Pokemon] or [null]. *)
Lemma fetchPokemon_Pokemon_or_null x st :
  cache_key x <> "constructor" ->
  cache_key x <> "__proto__" ->
  exists v st',
    fetchPokemon net x st = (Normal v, st') /\
    (v = VNull \/ exists p, v = VPokemon p).
Proof.
  intros Hc Hp.
  destruct (truthy (cache_get (pokemonCache st) (cache_key x))) eqn:Hhit.
  - rewrite fetchPokemon_cached by done. do 2 eexists. split; [done|].
    unfold cache_get in *.
    destruct (pokemonCache st !! cache_key x) as [p|]; [right; by eexists|].
    apply String.eqb_neq in Hc, Hp.
    rewrite Hc, Hp, cache_key_not_a_method in Hhit. discriminate.
  - rewrite fetchPokemon_uncached by done.
    edestruct fetchPokemon_resume_normal as (v & st' & -> & _ & _ & Hv).
    by do 2 eexists.
Qed.

End Resolver.

Section Reset.

(** C9: [resetSearch] empties the search input, empties and hides both
    containers, and leaves [pokemonCache] as it is: every slot holds the
    object it held before. *)
Theorem C9_resetSearch_keeps_cache (st : State) :
  searchInput_value (resetSearch st) = "" /\
  pokemonContainer (resetSearch st) = {| innerHTML := []; display := none |} /\
  suggestionsContainer (resetSearch st) = {| innerHTML := []; display := none |} /\
  idle (resetSearch st) /\
  pokemonCache (resetSearch st) = pokemonCache st /\
  (forall key p, pokemonCache st !! key = Some p ->
                 pokemonCache (resetSearch st) !! key = Some p).
Proof. repeat split; auto. Qed.

End Reset.


Section Batch.

Variable net : nat -> string -> AxiosResult.

Lemma set_requests_same st : set_requests (requests st) st = st.
Proof. by destruct st. Qed.

Lemma launch_spec names : forall st,
  launch names st =
    (launched (pokemonCache st) (length (requests st)) names,
     set_requests (requests st ++ requested (launched (pokemonCache st) (length (requests st)) names)) st).
Proof.
  induction names as [|name rest IH]; intros st; cbn [launch launched requested].
  - by rewrite app_nil_r, set_requests_same.
  - unfold fetchPokemon_begin, cache_key; cbn [String_of].
    destruct (truthy (cache_get (pokemonCache st) (toLowerCase name))) eqn:Hhit.
    + rewrite IH. reflexivity.
    + rewrite IH. cbn [requested pokemonCache requests set_requests].
      rewrite length_app, Nat.add_1_r, <- app_assoc. reflexivity.
Qed.

Lemma launched_well cache names : forall req, Forall well_slot (launched cache req names).
Proof.
  induction names as [|name rest IH]; intros req; cbn; [constructor|].
  destruct (truthy _); constructor; cbn; auto.
Qed.

Lemma launched_length cache names : forall req, length (launched cache req names) = length names.
Proof.
  induction names as [|name rest IH]; intros req; cbn; [done|].
  destruct (truthy _); cbn; by rewrite IH.
Qed.

Lemma first_rejected_well slots : Forall well_slot slots -> first_rejected slots = None.
Proof.
  induction 1 as [|s rest Hs _ IH]; [done|].
  destruct s as [[v|e|]|key req]; cbn in *; done.
Qed.

Lemma join_well slots :
  Forall well_slot slots -> join slots = Normal <$> all_fulfilled slots.
Proof.
  intros H. unfold join. rewrite first_rejected_well by done.
  by destruct (all_fulfilled slots).
Qed.

Lemma all_fulfilled_Some slots vs :
  all_fulfilled slots = Some vs <-> slots = map (fun v => Done (Normal v)) vs.
Proof.
  revert vs. induction slots as [|s rest IH]; intros vs; cbn.
  - split; [intros [= <-]; done | by destruct vs].
  - destruct s as [[v|e|]|key req]; try (split; [done | by destruct vs]).
    destruct (all_fulfilled rest) as [ws|].
    + split.
      * intros [= <-]. cbn. f_equal. by apply IH.
      * destruct vs as [|v' vs']; [done|]. intros [= -> Hrest].
        apply IH in Hrest. by injection Hrest as ->.
    + split; [done|]. destruct vs as [|v' vs']; [done|]. intros [= -> Hrest].
      apply IH in Hrest. done.
Qed.

Lemma all_fulfilled_no_waiting slots :
  Forall well_slot slots ->
  Forall (fun s => is_waiting s = false) slots ->
  is_Some (all_fulfilled slots).
Proof.
  induction 1 as [|s rest Hs _ IH]; intros Hw; cbn; [by eexists|].
  apply Forall_cons in Hw as [Hs' Hrest].
  destruct s as [[v|e|]|key req]; cbn in *; try done.
  destruct (IH Hrest) as [vs ->]. by eexists.
Qed.

Lemma all_fulfilled_waiting slots i key req :
  slots !! i = Some (Waiting key req) -> all_fulfilled slots = None.
Proof.
  revert i. induction slots as [|s rest IH]; intros [|i] H; cbn in *; try done.
  - by injection H as ->.
  - destruct s as [[v|e|]|key' req']; try done. by rewrite (IH i H).
Qed.

Lemma batch_inv_start slots0 :
  Forall well_slot slots0 ->
  batch_inv net slots0 {| slots := slots0; joined := join slots0 |}.
Proof.
  intros Hw. split; cbn; [|done|done].
  apply Forall2_same_length_lookup. split; [done|].
  intros i s s' H1 H2. left. congruence.
Qed.

Lemma deliver_inv slots0 i b st :
  batch_inv net slots0 b ->
  batch_inv net slots0 (fst (deliver net i b st)) /\
  requests (snd (deliver net i b st)) = requests st /\
  same_page st (snd (deliver net i b st)) /\
  (forall s, slots b !! i = Some s -> exists s',
      slots (fst (deliver net i b st)) !! i = Some s' /\ is_waiting s' = false) /\
  (forall j s, slots b !! j = Some s -> is_waiting s = false ->
      slots (fst (deliver net i b st)) !! j = Some s).
Proof.
  intros [Hfrom Hwell Hjoin]. unfold deliver.
  destruct (slots b !! i) as [[c|key req]|] eqn:Hi; cbn.
  - split_and!; try done; try apply same_page_refl.
    intros s [= <-]. by exists (Done c).
  - destruct (fetchPokemon_resume_normal key (net req (POKEAPI_URL ++ key)) st)
      as (v & st' & Heq & Hreq & Hpage & Hv).
    pose proof (fetchPokemon_resume_spec key (net req (POKEAPI_URL ++ key)) st) as Hspec.
    rewrite Heq. cbn.
    assert (Hfields : item_result net (Waiting key req) v).
    { unfold item_result. destruct (answer_fields _) as [f|].
      - destruct Hspec as (p & Heq' & Hf & _). rewrite Heq in Heq'.
        injection Heq' as -> _. cbn. by rewrite Hf.
      - destruct Hspec as (st'' & Heq' & _). rewrite Heq in Heq'.
        by injection Heq' as -> _. }
    assert (Hlt : (i < length (slots b))%nat) by (apply lookup_lt_is_Some; by eexists).
    assert (Hwell' : Forall well_slot (<[i := Done (Normal v)]> (slots b)))
      by (by apply Forall_insert).
    split_and!; try done.
    + split; cbn; [|done|].
      * destruct (Forall2_lookup_r _ _ _ _ _ Hfrom Hi) as (s0 & Hs0 & Hrel).
        rewrite <- (list_insert_id _ _ _ Hs0). apply Forall2_insert; [done|].
        destruct Hrel as [<- | (w & _ & Habs & _)]; [|done].
        right. by exists v.
      * rewrite Hjoin, (join_well _ Hwell).
        by rewrite (all_fulfilled_waiting _ _ _ _ Hi).
    + intros s _. exists (Done (Normal v)). split; [|done].
      by apply list_lookup_insert_eq.
    + intros j s Hj Hs. destruct (decide (i = j)) as [<-|Hne].
      * rewrite Hi in Hj. by injection Hj as <-.
      * by rewrite list_lookup_insert_ne.
  - split_and!; try done; try apply same_page_refl.
Qed.

Lemma arrivals_inv slots0 order : forall b st,
  batch_inv net slots0 b ->
  batch_inv net slots0 (fst (arrivals net order b st)) /\
  requests (snd (arrivals net order b st)) = requests st /\
  same_page st (snd (arrivals net order b st)) /\
  (forall j s, slots b !! j = Some s -> is_waiting s = false ->
      slots (fst (arrivals net order b st)) !! j = Some s) /\
  (joined (fst (arrivals net order b st)) = None ->
   forall i s, i ∈ order -> slots (fst (arrivals net order b st)) !! i = Some s ->
               is_waiting s = false).
Proof.
  induction order as [|i rest IH]; intros b st Hinv; cbn [arrivals].
  - destruct (joined b) eqn:Hj; cbn; split_and!; try done; try apply same_page_refl;
      intros _ i s Hin; by apply elem_of_nil in Hin.
  - destruct (joined b) eqn:Hj; cbn.
    { split_and!; try done; try apply same_page_refl; congruence. }
    destruct (deliver_inv slots0 i b st Hinv) as (Hinv1 & Hreq1 & Hpage1 & Hdone1 & Hmono1).
    destruct (deliver net i b st) as [b1 st1] eqn:Hd. cbn in *.
    destruct (IH b1 st1 Hinv1) as (Hinv2 & Hreq2 & Hpage2 & Hmono2 & Hdone2).
    split_and!; try done.
    + congruence.
    + eapply same_page_trans; eassumption.
    + intros j s Hs Hw. apply Hmono2; [|done]. by apply Hmono1.
    + intros Hnone k s Hin Hk. apply elem_of_cons in Hin as [-> | Hin].
      * destruct (slots b !! i) as [s0|] eqn:Hs0.
        -- destruct (Hdone1 s0 eq_refl) as (s' & Hs' & Hw').
           pose proof (Hmono2 _ _ Hs' Hw') as Hfin. congruence.
        -- assert (Hlen : length (slots (fst (arrivals net rest b1 st1))) = length (slots b)).
           { rewrite <- (Forall2_length _ _ _ (inv_from _ _ _ Hinv2)).
             by rewrite (Forall2_length _ _ _ (inv_from _ _ _ Hinv)). }
           apply lookup_ge_None in Hs0.
           assert (i < length (slots (fst (arrivals net rest b1 st1))))%nat
             by (apply lookup_lt_is_Some; by eexists).
           lia.
      * by eapply Hdone2.
Qed.

Lemma settled_results vs : forall slots0,
  Forall2 (settled_from net) slots0 (map (fun v => Done (Normal v)) vs) ->
  Forall2 (item_result net) slots0 vs.
Proof.
  induction vs as [|v vs IH]; intros slots0 H; cbn in H.
  - apply Forall2_nil_inv_r in H as ->. constructor.
  - apply Forall2_cons_inv_r in H as (s0 & rest & Hrel & Hrest & ->).
    constructor; [|by apply IH].
    destruct Hrel as [<- | (w & _ & [= <-] & Hres)]; done.
Qed.

Lemma item_result_fields slots0 vs :
  Forall2 (item_result net) slots0 vs ->
  omap value_fields vs = omap (slot_fields net) slots0.
Proof.
  induction 1 as [|s0 v rest vs Hres _ IH]; [done|].
  cbn [omap list_omap]. rewrite IH.
  destruct s0 as [c|key req]; cbn in *.
  - by subst c.
  - destruct (answer_fields _); by rewrite Hres.
Qed.

(** A batch, whatever the order of the answers: [Promise.all] is fulfilled
    with one value per name, holding the entities [batch_fields] lists; the
    requests made are those of the names not cached at the start. *)
Lemma Promise_all_spec order names st :
  exists vs st',
    Promise_all net order names st = (Normal vs, st') /\
    Forall2 (item_result net) (launched (pokemonCache st) (length (requests st)) names) vs /\
    requests st' =
      (requests st ++ requested (launched (pokemonCache st) (length (requests st)) names))%list /\
    pokemonContainer st' = pokemonContainer st /\
    suggestionsContainer st' = suggestionsContainer st /\
    searchInput_value st' = searchInput_value st.
Proof.
  unfold Promise_all, batch_run, batch_of. rewrite launch_spec.
  set (slots0 := launched (pokemonCache st) (length (requests st)) names).
  set (st1 := set_requests _ st).
  set (b0 := {| slots := slots0; joined := join slots0 |}).
  assert (Hinv0 : batch_inv net slots0 b0)
    by (apply batch_inv_start, launched_well).
  destruct (arrivals_inv slots0 (order ++ seq 0 (length names)) b0 st1 Hinv0)
    as (Hinv & Hreq & Hpage & _ & Hdone).
  destruct (arrivals net (order ++ seq 0 (length names)) b0 st1) as [b st'] eqn:Harr.
  cbn [fst snd] in *.
  destruct Hinv as [Hfrom Hwell Hjoin].
  assert (Hlen : length (slots b) = length names).
  { rewrite <- (Forall2_length _ _ _ Hfrom). apply launched_length. }
  assert (Hsome : exists vs, all_fulfilled (slots b) = Some vs).
  { destruct (all_fulfilled (slots b)) as [vs|] eqn:Hall; [by eexists|].
    assert (Hnone : joined b = None) by (by rewrite Hjoin, join_well, Hall).
    destruct (all_fulfilled_no_waiting (slots b) Hwell) as [vs Hvs]; [|congruence].
    apply Forall_lookup. intros i s Hs. apply (Hdone Hnone i s); [|done].
    apply elem_of_app. right. apply elem_of_seq.
    apply lookup_lt_Some in Hs. lia. }
  destruct Hsome as [vs Hall].
  rewrite Hjoin, join_well, Hall by done. cbn.
  apply all_fulfilled_Some in Hall.
  exists vs, st'. destruct Hpage as (Hp1 & Hp2 & Hp3).
  split_and!; try done.
  rewrite Hall in Hfrom. by apply settled_results.
Qed.

(** C4: while the answers of a batch arrive, in any order and up to any
    point, no call of [fetchPokemon] is rejected, and [Promise.all] is
    either pending or fulfilled with every slot fulfilled: it is never
    rejected, and it never settles while an item is still waiting.  Once all
    answers are in it is fulfilled with one value per item; the value of an
    item whose answer is a failure is [null], which is not a [Pokemon] and
    so is left out by the [instanceof] filter. *)
Theorem C4_join_waits_for_all (names : list string) (order : list nat) (st : State) :
  let start := batch_of names st in
  let b := fst (arrivals net order (fst start) (snd start)) in
  Forall well_slot (slots b) /\
  (joined b = None \/
   exists vs, joined b = Some (Normal vs) /\
              slots b = map (fun v => Done (Normal v)) vs /\
              length vs = length names) /\
  exists vs st',
    Promise_all net order names st = (Normal vs, st') /\
    Forall2 (item_result net) (slots (fst start)) vs.
Proof.
  cbn zeta. unfold batch_of. rewrite launch_spec. cbn [fst snd slots].
  set (slots0 := launched (pokemonCache st) (length (requests st)) names).
  set (st1 := set_requests _ st).
  set (b0 := {| slots := slots0; joined := join slots0 |}).
  assert (Hinv0 : batch_inv net slots0 b0)
    by (apply batch_inv_start, launched_well).
  destruct (arrivals_inv slots0 order b0 st1 Hinv0) as ([Hfrom Hwell Hjoin] & _).
  split_and!.
  - done.
  - rewrite Hjoin, join_well by done.
    destruct (all_fulfilled _) as [vs|] eqn:Hall; [right | by left].
    exists vs. apply all_fulfilled_Some in Hall. split_and!; try done.
    rewrite <- (launched_length (pokemonCache st) names (length (requests st))).
    fold slots0. rewrite (Forall2_length _ _ _ Hfrom), Hall. by rewrite length_map.
  - destruct (Promise_all_spec order names st) as (vs & st' & Heq & Hres & _).
    by exists vs, st'.
Qed.

End Batch.

Section Strings.

Lemma N_of_ascii_inj a b : N_of_ascii a = N_of_ascii b -> a = b.
Proof.
  intros H. rewrite <- (ascii_N_embedding a), <- (ascii_N_embedding b). by rewrite H.
Qed.

Lemma lower_ascii_same_letter a b :
  lower_ascii a = lower_ascii b <-> same_letter a b.
Proof.
  unfold same_letter, is_upper. split.
  - intros H. apply (f_equal N_of_ascii) in H. rewrite !lower_ascii_code in H.
    destruct ((65 <=? N_of_ascii a) && (N_of_ascii a <=? 90))%N eqn:Ha;
    destruct ((65 <=? N_of_ascii b) && (N_of_ascii b <=? 90))%N eqn:Hb.
    + left. apply N_of_ascii_inj. lia.
    + apply andb_true_iff in Ha as [H1 H2]. apply N.leb_le in H1, H2.
      right; left. lia.
    + apply andb_true_iff in Hb as [H1 H2]. apply N.leb_le in H1, H2.
      right; right. lia.
    + left. by apply N_of_ascii_inj.
  - intros [-> | [[Hu Hc] | [Hu Hc]]]; [done| |];
      apply N_of_ascii_inj; rewrite !lower_ascii_code.
    + replace ((65 <=? N_of_ascii a) && (N_of_ascii a <=? 90))%N with true
        by (symmetry; apply andb_true_iff; split; apply N.leb_le; lia).
      replace ((65 <=? N_of_ascii b) && (N_of_ascii b <=? 90))%N with false
        by (symmetry; apply andb_false_iff; right; apply N.leb_gt; lia).
      lia.
    + replace ((65 <=? N_of_ascii b) && (N_of_ascii b <=? 90))%N with true
        by (symmetry; apply andb_true_iff; split; apply N.leb_le; lia).
      replace ((65 <=? N_of_ascii a) && (N_of_ascii a <=? 90))%N with false
        by (symmetry; apply andb_false_iff; right; apply N.leb_gt; lia).
      lia.
Qed.

Lemma toLowerCase_equal_ignoring_case s : forall t,
  toLowerCase s = toLowerCase t <-> equal_ignoring_case s t.
Proof.
  induction s as [|a s IH]; intros [|b t]; cbn; try done.
  rewrite <- IH, <- lower_ascii_same_letter. split.
  - by intros [= -> ->].
  - by intros [-> ->].
Qed.

Lemma toLowerCase_app s t : toLowerCase (s ++ t) = toLowerCase s ++ toLowerCase t.
Proof. induction s as [|a s IH]; simpl; [done | by rewrite IH]. Qed.

(** A split of the lower-cased string is the image of a split of the string. *)
Lemma toLowerCase_split u : forall s v,
  toLowerCase s = u ++ v ->
  exists s1 s2, s = s1 ++ s2 /\ toLowerCase s1 = u /\ toLowerCase s2 = v.
Proof.
  induction u as [|c u IH]; intros s v H; cbn in H.
  - by exists "", s.
  - destruct s as [|a s]; [done|]. cbn in H. injection H as Hc Hrest.
    destruct (IH _ _ Hrest) as (s1 & s2 & -> & H1 & H2).
    exists (String a s1), s2. cbn. by rewrite Hc, H1, H2.
Qed.

Lemma startsWith_spec s : forall p,
  startsWith s p = true <-> exists rest, s = p ++ rest.
Proof.
  induction s as [|b s IH]; intros [|a p]; cbn.
  - split; [by exists "" | done].
  - split; [done | by intros [rest H]].
  - split; [by eexists | done].
  - destruct (Ascii.eqb_spec a b) as [->|Hne].
    + rewrite IH. split; intros [rest H]; exists rest; [by rewrite H | by injection H].
    + split; [done|]. intros [rest H]. injection H as H1 _. by symmetry in H1.
Qed.

Lemma includes_spec s : forall sub,
  includes s sub = true <-> exists before after, s = before ++ sub ++ after.
Proof.
  induction s as [|b s IH]; intros sub; cbn [includes]; rewrite orb_true_iff, startsWith_spec.
  - split.
    + intros [[rest H] | H]; [|done]. by exists "", rest.
    + intros ([|c before] & after & H); [|done]. left. by exists after.
  - rewrite IH. split.
    + intros [[rest H] | (before & after & H)].
      * by exists "", rest.
      * exists (String b before), after. cbn. by rewrite H.
    + intros ([|c before] & after & H).
      * left. by exists after.
      * right. injection H as _ H. by exists before, after.
Qed.

(** The test of [fetchSuggestions] decides case-insensitive containment. *)
Lemma includes_toLowerCase name query :
  includes (toLowerCase name) (toLowerCase query) = true <->
  contains_ignoring_case name query.
Proof.
  rewrite includes_spec. unfold contains_ignoring_case. split.
  - intros (before' & after' & H).
    apply toLowerCase_split in H as (before & rest & -> & _ & H).
    apply toLowerCase_split in H as (middle & after & -> & H & _).
    exists before, middle, after. split; [done|].
    by apply toLowerCase_equal_ignoring_case.
  - intros (before & middle & after & -> & H).
    apply toLowerCase_equal_ignoring_case in H.
    exists (toLowerCase before), (toLowerCase after).
    by rewrite !toLowerCase_app, H.
Qed.

#[global] Instance contains_ignoring_case_dec name query :
  Decision (contains_ignoring_case name query).
Proof.
  refine (cast_if (decide (includes (toLowerCase name) (toLowerCase query) = true)));
    abstract (by rewrite <- includes_toLowerCase).
Defined.

(** [matchingNames] keeps the names that contain the query, ignoring case,
    in the order of the index. *)
Lemma matchingNames_spec query results :
  matchingNames query results =
    filter (fun name => contains_ignoring_case name query) results.
Proof.
  unfold matchingNames. induction results as [|name rest IH]; [done|].
  cbn [List.filter]. rewrite filter_cons, IH.
  destruct (includes (toLowerCase name) (toLowerCase query)) eqn:H;
    destruct (decide (contains_ignoring_case name query)) as [Hc|Hc]; try done.
  - exfalso. apply Hc. by apply includes_toLowerCase.
  - apply includes_toLowerCase in Hc. congruence.
Qed.

End Strings.

Section Handlers.

Variable net : nat -> string -> AxiosResult.

Lemma filter_instanceof vs :
  List.filter instanceof_Pokemon vs = map VPokemon (omap as_Pokemon vs).
Proof.
  induction vs as [|v vs IH]; [done|].
  destruct v; cbn; by rewrite ?IH.
Qed.

Lemma value_fields_omap vs :
  omap value_fields vs = map fields (omap as_Pokemon vs).
Proof.
  induction vs as [|v vs IH]; [done|].
  destruct v; cbn; by rewrite ?IH.
Qed.

Lemma render_cards_Pokemon ps : render_cards (map VPokemon ps) = Normal (map Card ps).
Proof. induction ps as [|p ps IH]; cbn; [done | by rewrite IH]. Qed.

Lemma displayPokemon_Pokemon ps st :
  displayPokemon (map VPokemon ps) st =
    (Normal tt,
     set_suggestionsContainer (show none (suggestionsContainer st))
       (set_pokemonContainer {| innerHTML := map Card ps; display := flex |} st)).
Proof. unfold displayPokemon. by rewrite render_cards_Pokemon. Qed.

Lemma filter_index_take {A} (l : list A) : forall index,
  0 <= index ->
  filter_index (fun _ i => i <? TOTAL_POKEMON) index l =
    take (Z.to_nat (TOTAL_POKEMON - index)) l.
Proof.
  unfold TOTAL_POKEMON.
  induction l as [|x rest IH]; intros index Hindex; cbn [filter_index].
  - by rewrite take_nil.
  - rewrite IH by lia. destruct (Z.ltb_spec index 151) as [Hlt|Hge].
    + replace (Z.to_nat (151 - index)) with (S (Z.to_nat (151 - (index + 1)))) by lia.
      done.
    + replace (Z.to_nat (151 - index)) with 0%nat by lia.
      replace (Z.to_nat (151 - (index + 1))) with 0%nat by lia.
      by rewrite take_0.
Qed.

(** The type filter keeps the first 151 names. *)
Lemma pokemonNamesForType_take members : pokemonNamesForType members = take 151 members.
Proof. unfold pokemonNamesForType. by rewrite filter_index_take. Qed.

(** What [fetchSuggestions] computes before it touches the page. *)
Lemma validSuggestions_spec order query st :
  match net (length (requests st)) index_url with
  | Resolved (ListPayload results) =>
      exists ps st1,
        validSuggestions net order query st = (Normal (map VPokemon ps), st1) /\
        map fields ps =
          batch_fields net (pokemonCache st) (S (length (requests st)))
            (matchingNames query results) /\
        requests st1 =
          (requests st ++ [index_url] ++
           requested (launched (pokemonCache st) (S (length (requests st)))
                        (matchingNames query results)))%list /\
        same_page st st1
  | _ =>
      exists e st1,
        validSuggestions net order query st = (Throw e, st1) /\
        same_page st st1
  end.
Proof.
  unfold validSuggestions, bind, axios_get.
  destruct (net (length (requests st)) index_url) as [[d | results | members] | e]; cbn;
    try (do 2 eexists; split; [reflexivity | done]).
  destruct (Promise_all_spec net order (matchingNames query results)
              (set_requests (requests st ++ [index_url]) st))
    as (vs & st1 & Heq & Hres & Hreq & Hp1 & Hp2 & Hp3).
  rewrite Heq. cbn. rewrite filter_instanceof.
  exists (omap as_Pokemon vs), st1. cbn in Hres, Hreq, Hp1, Hp2, Hp3.
  rewrite length_app, Nat.add_1_r in Hres, Hreq.
  split_and!; try done.
  - rewrite <- value_fields_omap. by apply item_result_fields.
  - by rewrite Hreq, <- app_assoc.
Qed.

(** C5: for a non-empty query and an index that arrives, the names looked
    up are those of the index that contain the query ignoring case, in index
    order; the list handed to the display, and the cards shown, are the
    entities those names resolved to, in that order, failed ones left out,
    whatever the order in which the answers came. *)
Theorem C5_suggestions_in_index_order
    (order : list nat) (query : string) (results : list string) (st : State) :
  is_empty query = false ->
  net (length (requests st)) index_url = Resolved (ListPayload results) ->
  exists ps st1 st',
    matchingNames query results =
      filter (fun name => contains_ignoring_case name query) results /\
    validSuggestions net order query st = (Normal (map VPokemon ps), st1) /\
    map fields ps =
      batch_fields net (pokemonCache st) (S (length (requests st)))
        (matchingNames query results) /\
    fetchSuggestions net order query st = (Normal tt, st') /\
    innerHTML (suggestionsContainer st') = map Card ps /\
    requests st' =
      (requests st ++ [index_url] ++
       requested (launched (pokemonCache st) (S (length (requests st)))
                    (matchingNames query results)))%list.
Proof.
  intros Hq Hnet.
  pose proof (validSuggestions_spec order query st) as H. rewrite Hnet in H.
  destruct H as (ps & st1 & Hvalid & Hfields & Hreq & Hpage).
  unfold fetchSuggestions, try_catch, bind. rewrite Hq, Hvalid.
  unfold displaySuggestions. rewrite render_cards_Pokemon, length_map.
  exists ps, st1. destruct ps as [|p ps]; cbn.
  - eexists. split_and!; try done. apply matchingNames_spec.
  - eexists. split_and!; try done. apply matchingNames_spec.
Qed.

(** C6: a type filter on a membership list of more than 151 names looks up
    the first 151 names and nothing else: the requests it adds are the
    membership request and one detail request for each of those names that
    is not cached.  The cards shown are the entities they resolved to, in
    list order; when there is none the results show the "no Pokemon found
    for type" message and the listener ends normally. *)
Theorem C6_type_filter_first_151
    (order : list nat) (type : string) (members : list string) (st : State) :
  (151 < length members)%nat ->
  net (length (requests st)) (type_url type) = Resolved (TypePayload members) ->
  exists ps st',
    filterClick net order type st = (Normal tt, st') /\
    pokemonNamesForType members = take 151 members /\
    length (take 151 members) = 151%nat /\
    requests st' =
      (requests st ++ [type_url type] ++
       requested (launched (pokemonCache st) (S (length (requests st)))
                    (take 151 members)))%list /\
    map fields ps =
      batch_fields net (pokemonCache st) (S (length (requests st))) (take 151 members) /\
    pokemonContainer st' =
      {| innerHTML := match ps with
                      | [] => [Para (NoneForType type)]
                      | _ => map Card ps
                      end;
         display := flex |}.
Proof.
  intros Hlen Hnet.
  unfold filterClick, try_catch, bind, modify, hide_suggestions, axios_get. cbn.
  rewrite Hnet. cbn. rewrite pokemonNamesForType_take.
  match goal with |- context [Promise_all net order _ ?s] => set (st0 := s) end.
  destruct (Promise_all_spec net order (take 151 members) st0)
    as (vs & st1 & Heq & Hres & Hreq & Hp1 & Hp2 & Hp3).
  rewrite Heq. cbn. rewrite filter_instanceof, length_map.
  subst st0. cbn in Hres, Hreq, Hp1, Hp2, Hp3.
  rewrite length_app, Nat.add_1_r in Hres, Hreq.
  exists (omap as_Pokemon vs).
  assert (Hfields : map fields (omap as_Pokemon vs) =
                    batch_fields net (pokemonCache st) (S (length (requests st)))
                      (take 151 members))
    by (rewrite <- value_fields_omap; by apply item_result_fields).
  assert (Htake : length (take 151 members) = 151%nat) by (rewrite length_take; lia).
  destruct (omap as_Pokemon vs) as [|p ps] eqn:Hps;
    [cbn | cbn [length]; rewrite displayPokemon_Pokemon; cbn];
    eexists; (split_and!; try done); cbn; by rewrite Hreq, <- app_assoc.
Qed.

(** C7 as amended: the empty query sends no request; for the empty query,
    and whenever the list of suggestions comes out empty, the suggestions
    container is emptied and hidden and the results container is left as it
    was, so the page is idle exactly when the results were hidden before. *)
Theorem C7_empty_suggestions_hide_suggestions_only
    (order : list nat) (query : string) (st : State) :
  (is_empty query = true \/
   exists st1, validSuggestions net order query st = (Normal [], st1)) ->
  exists st',
    fetchSuggestions net order query st = (Normal tt, st') /\
    suggestionsContainer st' = {| innerHTML := []; display := none |} /\
    pokemonContainer st' = pokemonContainer st /\
    (idle st' <-> display (pokemonContainer st) = none) /\
    (if is_empty query then requests st' = requests st else True).
Proof.
  unfold fetchSuggestions, idle.
  destruct (is_empty query) eqn:Hq.
  - intros _. eexists. split; [reflexivity|]. cbn. split_and!; try done.
    split; [by intros [H _] | by intros H].
  - intros [? | (st1 & Hvalid)]; [done|].
    pose proof (validSuggestions_spec order query st) as Hspec.
    assert (Hpage : same_page st st1).
    { destruct (net (length (requests st)) index_url) as [[d | results | members] | e];
        try (destruct Hspec as (e' & st2 & Heq & _); rewrite Hvalid in Heq; discriminate).
      destruct Hspec as (ps & st2 & Heq & _ & _ & Hpage).
      rewrite Hvalid in Heq. by injection Heq as _ <-. }
    destruct Hpage as (_ & Hres & _).
    unfold try_catch, bind. rewrite Hvalid. cbn.
    eexists. split; [reflexivity|]. cbn. rewrite Hres. split_and!; try done.
    split; [by intros [H _] | by intros H].
Qed.

(** When the index does not arrive, [fetchSuggestions] shows the
    suggestions container with its error message and leaves the results
    container as it was. *)
Lemma fetchSuggestions_index_failure order query st e :
  is_empty query = false ->
  net (length (requests st)) index_url = Failed e ->
  exists st',
    fetchSuggestions net order query st = (Normal tt, st') /\
    suggestionsContainer st' =
      {| innerHTML := [Para ErrorLoadingSuggestions]; display := flex |} /\
    pokemonContainer st' = pokemonContainer st.
Proof.
  intros Hq Hnet.
  unfold fetchSuggestions, validSuggestions, try_catch, bind, axios_get.
  rewrite Hq, Hnet. cbn. by eexists.
Qed.

(** Apart from a keystroke whose index request goes wrong, every listener
    keeps the two containers from being shown together. *)
Lemma handle_at_most_one st ev :
  at_most_one st -> index_arrives net st ev -> at_most_one (handle net st ev).
Proof.
  unfold at_most_one, results_visible, suggestions_visible, handle.
  intros Hinv Harr [Hres Hsug]. destruct ev as [value order | | | type order | ]; cbn in *.
  - unfold bind, modify in *. cbn in *. unfold fetchSuggestions in *.
    destruct (is_empty (trim value)) eqn:Hq; [by cbn in Hsug|].
    destruct Harr as [? | (results & Hnet)]; [done|].
    pose proof (validSuggestions_spec order (trim value) (set_searchInput value st)) as H.
    cbn [requests set_searchInput] in H. rewrite Hnet in H.
    destruct H as (ps & st1 & Hvalid & _ & _ & Hpage).
    unfold try_catch, bind in *. rewrite Hvalid in *.
    unfold displaySuggestions in *. rewrite render_cards_Pokemon, length_map in *.
    destruct ps; cbn in *; done.
  - unfold bind, gets, searchPokemons in *. cbn in *.
    destruct (is_empty _); [by cbn in Hsug|].
    unfold bind in *.
    destruct (fetchPokemon_normal net (Str (toLowerCase (trim (searchInput_value st)))) st)
      as (v & st1 & Heq & _ & Hp2 & Hp3).
    rewrite Heq in *. destruct v; cbn in *; try done; apply Hinv; by rewrite <- Hp2, <- Hp3.
  - unfold bind, gets, searchPokemons in *. cbn in *.
    destruct (is_empty _); [by cbn in Hsug|].
    unfold bind in *.
    destruct (fetchPokemon_normal net (Str (toLowerCase (trim (searchInput_value st)))) st)
      as (v & st1 & Heq & _ & Hp2 & Hp3).
    rewrite Heq in *. destruct v; cbn in *; try done; apply Hinv; by rewrite <- Hp2, <- Hp3.
  - clear Hres. revert Hsug.
    unfold filterClick, try_catch, bind, modify, hide_suggestions, axios_get. cbn.
    destruct (net (length (requests st)) (type_url type)) as [[d | results | members] | e];
      cbn; try done.
    match goal with |- context [Promise_all net order _ ?s] => set (st0 := s) end.
    destruct (Promise_all_spec net order (pokemonNamesForType members) st0)
      as (vs & st1 & Heq & _ & _ & _ & Hp2 & _).
    rewrite Heq. cbn. rewrite filter_instanceof, length_map.
    destruct (omap as_Pokemon vs) as [|p ps];
      [cbn | cbn [length]; rewrite displayPokemon_Pokemon; cbn]; [|done].
    by rewrite Hp2.
  - done.
Qed.

End Handlers.

(** * The sample catalog at work *)

Section Samples.

Example index_url_limit_151 :
  index_url = "https://pokeapi.co/api/v2/pokemon/?limit=151&offset=0".
Proof. by vm_compute. Qed.

(** The query "char" against the sample index, the answers arriving in
    slot order, in reverse, or one of them first: charmander, charmeleon and
    charizard, in index order. *)
Example suggestions_char :
  Forall (fun order =>
            card_names (suggestionsContainer
                          (snd (fetchSuggestions catalog order "char" initial)))
            = ["charmander"; "charmeleon"; "charizard"])
         [[]; [2; 1; 0]%nat; [1]%nat].
Proof. repeat constructor. Qed.

(** A name whose record has no "hp" is looked up and left out. *)
Example suggestions_without_hp :
  card_names (suggestionsContainer (snd (fetchSuggestions catalog [] "m" initial)))
    = ["charmander"; "charmeleon"] /\
  requests (snd (fetchSuggestions catalog [] "m" initial))
    = [index_url; POKEAPI_URL ++ "charmander"; POKEAPI_URL ++ "charmeleon";
       POKEAPI_URL ++ "missingno"].
Proof. by vm_compute. Qed.

(** Typing "constructor" and pressing the search button: [displayPokemon]
    is given the built-in [Object], the call of [renderCard] throws, and the
    listener ends with a TypeError and an emptied results container. *)
Example search_constructor :
  listener catalog SearchClick (set_searchInput "constructor" initial)
    = (Throw ETypeError, set_searchInput "constructor" initial).
Proof. by vm_compute. Qed.

(** Two calls for the same name in one batch both miss the cache and both
    send a request. *)
Example duplicate_names_in_a_batch :
  requests (snd (Promise_all catalog [] ["pikachu"; "pikachu"] initial)) =
    [POKEAPI_URL ++ "pikachu"; POKEAPI_URL ++ "pikachu"].
Proof. reflexivity. Qed.

(** C1, on the page of [after_failed_index]: the results show the card of
    pikachu, the index request of the next keystroke fails, and the
    suggestions container is shown with its error message while the results
    stay visible. *)
Theorem C1_index_failure_shows_both :
  results_visible after_failed_index /\ suggestions_visible after_failed_index /\
  suggestionsContainer after_failed_index =
    {| innerHTML := [Para ErrorLoadingSuggestions]; display := flex |}.
Proof. by vm_compute. Qed.

Lemma C2_witness :
  uncached initial (Num 25) /\
  exists p st1,
    fetchPokemon catalog (Num 25) initial = (Normal (VPokemon p), st1) /\
    fetchPokemon catalog (Num 25) st1 = (Normal (VPokemon p), st1) /\
    requests st1 = [POKEAPI_URL ++ "25"].
Proof.
  assert (H1 : uncached initial (Num 25)) by (vm_compute; reflexivity).
  assert (H2 : answer_fields (catalog (length (requests initial)) (detail_url (Num 25)))
               = Some (25, "pikachu", "sprites/pokemon/25.png", ["electric"],
                       d_stats pikachu, 35))
    by (vm_compute; reflexivity).
  split; [exact H1|].
  destruct (C2_fetchPokemon_memoized catalog (Num 25) initial _ H1 H2)
    as (p & st1 & Ha & Hb & _ & _ & Hreq).
  exists p, st1. split; [exact Ha|]. split; [exact Hb|]. exact Hreq.
Defined.

Lemma C3_witness :
  uncached initial (Str "99999") /\
  exists st1,
    fetchPokemon catalog (Str "99999") initial = (Normal VNull, st1) /\
    pokemonCache st1 = pokemonCache initial /\
    length (requests (snd (fetchPokemon catalog (Str "99999") st1))) = 2%nat.
Proof.
  assert (H1 : uncached initial (Str "99999")) by (vm_compute; reflexivity).
  assert (H2 : answer_fields
                 (catalog (length (requests initial)) (detail_url (Str "99999"))) = None)
    by (vm_compute; reflexivity).
  split; [exact H1|].
  destruct (C3_failures_not_cached catalog (Str "99999") initial H1 H2)
    as (st1 & Ha & Hb & Hc & Hd).
  exists st1. split; [exact Ha|]. split; [exact Hb|].
  rewrite Hd, Hc. reflexivity.
Defined.

Lemma C5_witness :
  is_empty "char" = false /\
  exists ps st1,
    validSuggestions catalog [2; 0; 1]%nat "char" initial = (Normal (map VPokemon ps), st1) /\
    map pk_name ps = ["charmander"; "charmeleon"; "charizard"].
Proof.
  assert (H1 : is_empty "char" = false) by reflexivity.
  assert (H2 : catalog (length (requests initial)) index_url
               = Resolved (ListPayload sample_index))
    by (vm_compute; reflexivity).
  split; [exact H1|].
  destruct (C5_suggestions_in_index_order catalog [2; 0; 1]%nat "char" sample_index
              initial H1 H2)
    as (ps & st1 & st' & _ & Hvalid & Hfields & _).
  exists ps, st1. split; [exact Hvalid|].
  assert (Hnames : map pk_name ps = map (fun f => f.1.1.1.1.2) (map fields ps))
    by (rewrite map_map; reflexivity).
  rewrite Hnames, Hfields. vm_compute. reflexivity.
Defined.

Lemma C6_witness :
  (151 < length fire_members)%nat /\
  exists ps st',
    filterClick catalog [] "fire" initial = (Normal tt, st') /\
    length (requests st') = 152%nat /\
    map pk_name ps = ["charmander"; "charmeleon"; "charizard"] /\
    innerHTML (pokemonContainer st') = map Card ps.
Proof.
  assert (H1 : (151 < length fire_members)%nat) by (vm_compute; lia).
  assert (H2 : catalog (length (requests initial)) (type_url "fire")
               = Resolved (TypePayload fire_members))
    by (vm_compute; reflexivity).
  split; [exact H1|].
  destruct (C6_type_filter_first_151 catalog [] "fire" fire_members initial H1 H2)
    as (ps & st' & Hrun & _ & _ & Hreq & Hfields & Hshown).
  assert (Hnames : map pk_name ps = ["charmander"; "charmeleon"; "charizard"]).
  { assert (Hn : map pk_name ps = map (fun f => f.1.1.1.1.2) (map fields ps))
      by (rewrite map_map; reflexivity).
    rewrite Hn, Hfields. vm_compute. reflexivity. }
  exists ps, st'. split; [exact Hrun|]. split.
  - rewrite Hreq. vm_compute. reflexivity.
  - split; [exact Hnames|]. rewrite Hshown.
    destruct ps; [discriminate Hnames | reflexivity].
Defined.

Lemma C7_witness :
  (is_empty "zzz" = true \/
   exists st1, validSuggestions catalog [] "zzz" after_search = (Normal [], st1)) /\
  exists st',
    fetchSuggestions catalog [] "zzz" after_search = (Normal tt, st') /\
    suggestionsContainer st' = {| innerHTML := []; display := none |} /\
    pokemonContainer st' = pokemonContainer after_search.
Proof.
  assert (H : is_empty "zzz" = true \/
              exists st1, validSuggestions catalog [] "zzz" after_search = (Normal [], st1))
    by (right; eexists; vm_compute; reflexivity).
  split; [exact H|].
  destruct (C7_empty_suggestions_hide_suggestions_only catalog [] "zzz" after_search H)
    as (st' & Ha & Hb & Hc & _).
  exists st'. split; [exact Ha|]. split; [exact Hb | exact Hc].
Defined.

(** C7 as stated fails on the page of [after_search]: the query "zzz" has
    no match, the list of suggestions is empty, and the results stay
    visible, so the page is not idle. *)
Lemma C7_counterexample :
  fst (validSuggestions catalog [] "zzz" after_search) = Normal [] /\
  results_visible (snd (fetchSuggestions catalog [] "zzz" after_search)) /\
  ~ idle (snd (fetchSuggestions catalog [] "zzz" after_search)).
Proof.
  split; [by vm_compute|]. split; [by vm_compute|].
  intros [H _]. vm_compute in H. discriminate H.
Qed.

Lemma C8_witness :
  cache_key (Str "25") <> cache_key (Str "pikachu") /\
  exists p1 p2 st1 st2,
    fetchPokemon catalog (Str "25") initial = (Normal (VPokemon p1), st1) /\
    fetchPokemon catalog (Str "pikachu") st1 = (Normal (VPokemon p2), st2) /\
    pokemonCache st2 !! "25" = Some p1 /\
    pokemonCache st2 !! "pikachu" = Some p2 /\
    fields p1 = fields p2 /\
    ref p1 <> ref p2.
Proof.
  assert (H0 : cache_key (Str "25") <> cache_key (Str "pikachu"))
    by (vm_compute; discriminate).
  assert (H1 : uncached initial (Str "25")) by (vm_compute; reflexivity).
  assert (H2 : uncached initial (Str "pikachu")) by (vm_compute; reflexivity).
  assert (H3 : answer_fields (catalog (length (requests initial)) (detail_url (Str "25")))
               = Some (25, "pikachu", "sprites/pokemon/25.png", ["electric"],
                       d_stats pikachu, 35))
    by (vm_compute; reflexivity).
  assert (H4 : answer_fields
                 (catalog (S (length (requests initial))) (detail_url (Str "pikachu")))
               = Some (25, "pikachu", "sprites/pokemon/25.png", ["electric"],
                       d_stats pikachu, 35))
    by (vm_compute; reflexivity).
  split; [exact H0|].
  destruct (C8_key_forms_not_unified catalog (Str "25") (Str "pikachu") initial _
              H0 H1 H2 H3 H4)
    as (p1 & p2 & st1 & st2 & Ha & Hb & Hc & Hd & He & Hf & _).
  exists p1, p2, st1, st2.
  split; [exact Ha|]. split; [exact Hb|]. split; [exact Hc|].
  split; [exact Hd|]. split; [exact He | exact Hf].
Defined.

End Samples.

(** * Beyond the claims: keys, search, type filter *)

Section MoreStrings.

Lemma lower_ascii_idemp c : lower_ascii (lower_ascii c) = lower_ascii c.
Proof.
  apply N_of_ascii_inj. rewrite (lower_ascii_code (lower_ascii c)), lower_ascii_code.
  destruct ((65 <=? N_of_ascii c) && (N_of_ascii c <=? 90))%N eqn:H.
  - apply andb_true_iff in H as [H1 H2]. apply N.leb_le in H1, H2.
    replace ((65 <=? N_of_ascii c + 32) && (N_of_ascii c + 32 <=? 90))%N with false; [done|].
    symmetry. apply andb_false_iff. right. apply N.leb_gt. lia.
  - by rewrite H.
Qed.

Lemma toLowerCase_idemp s : toLowerCase (toLowerCase s) = toLowerCase s.
Proof. induction s as [|c s IH]; cbn; [done|]. by rewrite lower_ascii_idemp, IH. Qed.

Lemma is_empty_toLowerCase s : is_empty (toLowerCase s) = is_empty s.
Proof. by destruct s. Qed.

Lemma trimEnd_blank s : blank s = true -> trimEnd s = "".
Proof.
  induction s as [|c s IH]; cbn; [done|].
  intros [Hc Hs]%andb_true_iff. by rewrite (IH Hs), Hc.
Qed.

Lemma trimEnd_empty s : trimEnd s = "" -> blank s = true.
Proof.
  induction s as [|c s IH]; cbn; [done|].
  destruct (trimEnd s) eqn:Ht; [|done].
  destruct (is_space c); [|done]. intros _. by rewrite IH.
Qed.

Lemma trimStart_blank s : blank (trimStart s) = blank s.
Proof.
  induction s as [|c s IH]; cbn; [done|].
  destruct (is_space c) eqn:Hc; cbn; [done | by rewrite Hc].
Qed.

(** [trim] yields the empty string exactly on the inputs made of white
    space only. *)
Lemma is_empty_trim s : is_empty (trim s) = blank s.
Proof.
  unfold trim. rewrite <- trimStart_blank.
  destruct (blank (trimStart s)) eqn:Hb.
  - by rewrite trimEnd_blank.
  - destruct (trimEnd (trimStart s)) eqn:Ht; [|done].
    apply trimEnd_empty in Ht. congruence.
Qed.

End MoreStrings.

Section Search.

Variable net : nat -> string -> AxiosResult.

(** The first resolution of a key the catalog knows. *)
Lemma fetchPokemon_resolves x st f :
  uncached st x ->
  answer_fields (net (length (requests st)) (detail_url x)) = Some f ->
  exists p,
    fetchPokemon net x st =
      (Normal (VPokemon p),
       set_pokemonCache (<[cache_key x := p]> (pokemonCache st))
         (set_allocated (S (allocated st))
            (set_requests (requests st ++ [detail_url x]) st))) /\
    fields p = f /\ ref p = allocated st.
Proof.
  intros Hun Hans. rewrite (fetchPokemon_uncached net x st Hun).
  pose proof (fetchPokemon_resume_spec (cache_key x)
    (net (length (requests st)) (detail_url x))
    (set_requests (requests st ++ [detail_url x]) st)) as H.
  rewrite Hans in H. destruct H as (p & Heq & Hf & Hr). by exists p.
Qed.

(** The resolution of a key the catalog does not know. *)
Lemma fetchPokemon_fails x st :
  uncached st x ->
  answer_fields (net (length (requests st)) (detail_url x)) = None ->
  exists st1,
    fetchPokemon net x st = (Normal VNull, st1) /\
    pokemonCache st1 = pokemonCache st /\
    requests st1 = (requests st ++ [detail_url x])%list /\
    same_page st st1.
Proof.
  intros Hun Hans. rewrite (fetchPokemon_uncached net x st Hun).
  pose proof (fetchPokemon_resume_spec (cache_key x)
    (net (length (requests st)) (detail_url x))
    (set_requests (requests st ++ [detail_url x]) st)) as H.
  rewrite Hans in H. destruct H as (st1 & Heq & Hc & Hr & Hp). by exists st1.
Qed.

Lemma cache_key_ignores_case s t :
  equal_ignoring_case s t -> cache_key (Str s) = cache_key (Str t).
Proof. intros H. by apply toLowerCase_equal_ignoring_case. Qed.

(** X1: Once a name is resolved, the same name in any other capitalisation is
    served from the cache: the same object comes back and no request is
    sent. *)
Theorem fetchPokemon_ignores_case (s t : string) (st : State) (f : Fields) :
  uncached st (Str s) ->
  answer_fields (net (length (requests st)) (detail_url (Str s))) = Some f ->
  equal_ignoring_case s t ->
  exists p st1,
    fetchPokemon net (Str s) st = (Normal (VPokemon p), st1) /\
    fetchPokemon net (Str t) st1 = (Normal (VPokemon p), st1).
Proof.
  intros Hun Hans Heq.
  destruct (fetchPokemon_resolves (Str s) st f Hun Hans) as (p & Hfetch & _ & _).
  rewrite Hfetch. do 2 eexists. split; [reflexivity|].
  rewrite fetchPokemon_cached; rewrite <- (cache_key_ignores_case s t Heq); cbn;
    by rewrite (cache_get_own _ _ p (lookup_insert_eq _ _ _)).
Qed.

Lemma cache_key_search_key st : cache_key (Str (search_key st)) = search_key st.
Proof. apply toLowerCase_idemp. Qed.

Lemma SearchClick_unfold st :
  listener net SearchClick st = searchPokemons net (search_key st) st.
Proof. reflexivity. Qed.

(** X4: A search on an input of white space only shows the prompt and hides the
    suggestions; nothing is requested and the cache is as before. *)
Theorem search_blank_input (st : State) :
  blank (searchInput_value st) = true ->
  exists st',
    listener net SearchClick st = (Normal tt, st') /\
    pokemonContainer st' = {| innerHTML := [Para PleaseType]; display := flex |} /\
    suggestionsContainer st' = {| innerHTML := []; display := none |} /\
    requests st' = requests st /\
    pokemonCache st' = pokemonCache st /\
    searchInput_value st' = searchInput_value st.
Proof.
  intros Hb. rewrite SearchClick_unfold. unfold searchPokemons, search_key.
  rewrite is_empty_toLowerCase, is_empty_trim, Hb.
  eexists. split; [reflexivity|]. by cbn.
Qed.

(** X5: A search for a name that is not cached and that the catalog knows: one
    request, for the trimmed lower-case input; the results show the one new
    card; the suggestions are emptied and hidden; the input stays. *)
Theorem search_found (st : State) (f : Fields) :
  blank (searchInput_value st) = false ->
  uncached st (Str (search_key st)) ->
  answer_fields (net (length (requests st)) (search_url st)) = Some f ->
  exists p st',
    listener net SearchClick st = (Normal tt, st') /\
    fields p = f /\
    pokemonContainer st' = {| innerHTML := [Card p]; display := flex |} /\
    suggestionsContainer st' = {| innerHTML := []; display := none |} /\
    pokemonCache st' = <[search_key st := p]> (pokemonCache st) /\
    requests st' = (requests st ++ [search_url st])%list /\
    searchInput_value st' = searchInput_value st.
Proof.
  intros Hb Hun Hans. rewrite SearchClick_unfold. unfold searchPokemons.
  unfold search_key at 1. rewrite is_empty_toLowerCase, is_empty_trim, Hb.
  assert (Hurl : detail_url (Str (search_key st)) = search_url st)
    by (unfold detail_url, search_url; by rewrite cache_key_search_key).
  rewrite <- Hurl in Hans.
  destruct (fetchPokemon_resolves (Str (search_key st)) st f Hun Hans) as (p & Hfetch & Hf & _).
  unfold bind. rewrite Hfetch. cbn [truthy].
  rewrite (displayPokemon_Pokemon [p]). cbn.
  exists p. eexists. split; [reflexivity|]. cbn.
  change (toLowerCase (search_key st)) with (cache_key (Str (search_key st))).
  rewrite cache_key_search_key, Hurl. by split_and!.
Qed.

(** X6: A search for a name that is not cached and that the catalog does not
    know (an error status, no response, a record without "hp"): the results
    show "not found", the suggestions are emptied and hidden, the cache is
    as before. *)
Theorem search_not_found (st : State) :
  blank (searchInput_value st) = false ->
  uncached st (Str (search_key st)) ->
  answer_fields (net (length (requests st)) (search_url st)) = None ->
  exists st',
    listener net SearchClick st = (Normal tt, st') /\
    pokemonContainer st' = {| innerHTML := [Para NotFound]; display := flex |} /\
    suggestionsContainer st' = {| innerHTML := []; display := none |} /\
    pokemonCache st' = pokemonCache st /\
    requests st' = (requests st ++ [search_url st])%list /\
    searchInput_value st' = searchInput_value st.
Proof.
  intros Hb Hun Hans. rewrite SearchClick_unfold. unfold searchPokemons.
  unfold search_key at 1. rewrite is_empty_toLowerCase, is_empty_trim, Hb.
  assert (Hurl : detail_url (Str (search_key st)) = search_url st)
    by (unfold detail_url, search_url; by rewrite cache_key_search_key).
  rewrite <- Hurl in Hans.
  destruct (fetchPokemon_fails (Str (search_key st)) st Hun Hans)
    as (st1 & Hfetch & Hc & Hr & Hp1 & Hp2 & Hp3).
  unfold bind. rewrite Hfetch. cbn.
  eexists. split; [reflexivity|]. cbn. rewrite <- Hurl, Hr. by split_and!.
Qed.

(** X7: A search for a cached name shows the card of the cached object and
    sends no request. *)
Theorem search_cached (st : State) (p : Pokemon) :
  blank (searchInput_value st) = false ->
  pokemonCache st !! search_key st = Some p ->
  exists st',
    listener net SearchClick st = (Normal tt, st') /\
    pokemonContainer st' = {| innerHTML := [Card p]; display := flex |} /\
    suggestionsContainer st' = {| innerHTML := []; display := none |} /\
    pokemonCache st' = pokemonCache st /\
    requests st' = requests st /\
    searchInput_value st' = searchInput_value st.
Proof.
  intros Hb Hp. rewrite SearchClick_unfold. unfold searchPokemons.
  unfold search_key at 1. rewrite is_empty_toLowerCase, is_empty_trim, Hb.
  unfold bind. rewrite fetchPokemon_cached;
    rewrite cache_key_search_key, (cache_get_own _ _ _ Hp); [|done].
  cbn [truthy]. rewrite (displayPokemon_Pokemon [p]). cbn.
  eexists. split; [reflexivity|]. by cbn.
Qed.

(** X3: [new Pokemon] throws exactly when no stat of the record is named
    "hp"; otherwise the object takes its [hp] from the first such stat and
    every other field from the record. *)
Theorem new_Pokemon_throws_iff (d : PokemonData) (st : State) :
  (fst (new_Pokemon (PokemonPayload d) st) = Throw ETypeError <->
   forall stat, stat ∈ d_stats d -> stat_name stat <> "hp") /\
  (forall p, fst (new_Pokemon (PokemonPayload d) st) = Normal p ->
     ref p = allocated st /\ hp_ok p /\
     (pk_id p, pk_name p, pk_sprites p, pk_types p, pk_stats p)
       = (d_id d, d_name d, d_front_default d, d_types d, d_stats d)).
Proof.
  unfold new_Pokemon. destruct (find is_hp (d_stats d)) as [stat|] eqn:Hfind; cbn.
  - split.
    + split; [done|]. intros Hall. apply find_some in Hfind as [Hin Hhp].
      apply list_elem_of_In in Hin. apply String.eqb_eq in Hhp. by destruct (Hall _ Hin).
    + intros p [= <-]. unfold hp_ok. cbn. by rewrite Hfind.
  - split; [|done]. split; [|done]. intros _ stat Hin Hname.
    apply list_elem_of_In in Hin.
    pose proof (find_none _ _ Hfind _ Hin) as Hf. unfold is_hp in Hf.
    apply String.eqb_neq in Hf. done.
Qed.

(** X2: [fetchPokemon] never writes to the page, never fails, and sends at
    most one request, the one for its key. *)
Theorem fetchPokemon_frame (x : Input) (st : State) :
  exists v st',
    fetchPokemon net x st = (Normal v, st') /\
    same_page st st' /\
    (requests st' = requests st \/
     requests st' = (requests st ++ [detail_url x])%list).
Proof.
  destruct (truthy (cache_get (pokemonCache st) (cache_key x))) eqn:Hhit.
  - rewrite fetchPokemon_cached by done. do 2 eexists.
    split; [done|]. split; [apply same_page_refl | by left].
  - rewrite fetchPokemon_uncached by done.
    edestruct fetchPokemon_resume_normal as (v & st' & -> & Hreq & Hp & _).
    do 2 eexists. split; [done|]. split; [exact Hp | by right].
Qed.

End Search.

Section Batches.

Variable net : nat -> string -> AxiosResult.

Lemma requested_launched cache names : forall req,
  requested (launched cache req names) = uncached_urls cache names.
Proof.
  unfold uncached_urls.
  induction names as [|name rest IH]; intros req; cbn [launched List.filter]; [done|].
  destruct (truthy (cache_get cache (toLowerCase name))); cbn; by rewrite IH.
Qed.

Lemma uncached_urls_length cache names :
  (length (uncached_urls cache names) <= length names)%nat.
Proof.
  unfold uncached_urls. rewrite length_map.
  induction names as [|name rest IH]; cbn; [done|].
  destruct (negb _); cbn; lia.
Qed.

(** X9: No coalescing and no dependence on timing: a batch sends one request
    for each name that is not cached when it starts, as often as the name
    occurs and in the order of the names, whatever the order in which the
    answers arrive. *)
Theorem batch_requests (order : list nat) (names : list string) (st : State) :
  requests (snd (Promise_all net order names st)) =
    (requests st ++ uncached_urls (pokemonCache st) names)%list.
Proof.
  destruct (Promise_all_spec net order names st) as (vs & st' & Heq & _ & Hreq & _).
  rewrite Heq. cbn. by rewrite Hreq, requested_launched.
Qed.

(** X11: A membership list of at most 151 names is looked up whole. *)
Theorem pokemonNamesForType_short (members : list string) :
  (length members <= 151)%nat -> pokemonNamesForType members = members.
Proof. intros H. rewrite pokemonNamesForType_take. by apply take_ge. Qed.

(** X12: However long the membership list, at most 151 names are looked up, and
    they are a prefix of the list. *)
Theorem pokemonNamesForType_bound (members : list string) :
  length (pokemonNamesForType members) = Nat.min 151 (length members) /\
  exists beyond, members = (pokemonNamesForType members ++ beyond)%list.
Proof.
  rewrite pokemonNamesForType_take. split; [apply length_take|].
  exists (drop 151 members). by rewrite take_drop.
Qed.

(** X13: Whatever the network does, the listener of a filter button ends
    normally with the search input empty, the suggestions emptied and
    hidden and the results shown; it has sent its membership request and at
    most 151 detail requests. *)
Theorem filterClick_always (order : list nat) (type : string) (st : State) :
  exists st' details,
    filterClick net order type st = (Normal tt, st') /\
    searchInput_value st' = "" /\
    suggestionsContainer st' = {| innerHTML := []; display := none |} /\
    display (pokemonContainer st') = flex /\
    requests st' = (requests st ++ [type_url type] ++ details)%list /\
    (length details <= 151)%nat.
Proof.
  unfold filterClick, try_catch, bind, modify, hide_suggestions, axios_get. cbn.
  destruct (net (length (requests st)) (type_url type)) as [[d | results | members] | e];
    cbn; try (eexists; exists []; split; [reflexivity|]; cbn; split_and!; try done; lia).
  match goal with |- context [Promise_all net order _ ?s] => set (st0 := s) end.
  destruct (Promise_all_spec net order (pokemonNamesForType members) st0)
    as (vs & st1 & Heq & _ & Hreq & Hp1 & Hp2 & Hp3).
  rewrite Heq. cbn. rewrite filter_instanceof, length_map.
  subst st0. cbn in Hreq, Hp1, Hp2, Hp3.
  assert (Hlen : (length (requested (launched (pokemonCache st)
                    (length (requests st ++ [type_url type]))
                    (pokemonNamesForType members))) <= 151)%nat).
  { rewrite requested_launched.
    etransitivity; [apply uncached_urls_length|].
    rewrite pokemonNamesForType_take, length_take. lia. }
  destruct (omap as_Pokemon vs) as [|p ps];
    [cbn | cbn [length]; rewrite displayPokemon_Pokemon; cbn];
    eexists; eexists; (split; [reflexivity|]); cbn;
    rewrite ?Hp2, ?Hp3, Hreq, <- app_assoc; split_and!; try done; exact Hlen.
Qed.

(** X14: When the membership request fails, or is answered with something that
    is not a membership list, the results show the error message for the
    type; no detail request is sent and the cache is as before. *)
Theorem filterClick_membership_failure (order : list nat) (type : string) (st : State) :
  (forall members,
     net (length (requests st)) (type_url type) <> Resolved (TypePayload members)) ->
  exists st',
    filterClick net order type st = (Normal tt, st') /\
    pokemonContainer st' = {| innerHTML := [Para ErrorLoadingType]; display := flex |} /\
    requests st' = (requests st ++ [type_url type])%list /\
    pokemonCache st' = pokemonCache st /\
    console st' = (console st ++ [ErrorType])%list.
Proof.
  intros Hnet.
  unfold filterClick, try_catch, bind, modify, hide_suggestions, axios_get. cbn.
  destruct (net (length (requests st)) (type_url type)) as [[d | results | members] | e];
    cbn; try (eexists; split; [reflexivity|]; by cbn).
  by destruct (Hnet members).
Qed.

(** X15: Whatever the network does, [fetchSuggestions] ends normally, and it
    leaves the search input and the content of the results container as
    they were. *)
Theorem fetchSuggestions_always (order : list nat) (query : string) (st : State) :
  exists st',
    fetchSuggestions net order query st = (Normal tt, st') /\
    searchInput_value st' = searchInput_value st /\
    innerHTML (pokemonContainer st') = innerHTML (pokemonContainer st).
Proof.
  unfold fetchSuggestions. destruct (is_empty query); [by eexists|].
  pose proof (validSuggestions_spec net order query st) as H.
  unfold try_catch, bind.
  destruct (net (length (requests st)) index_url) as [[d | results | members] | e];
    try (destruct H as (e' & st1 & -> & Hp1 & Hp2 & _); cbn;
         eexists; split; [reflexivity|]; cbn; by rewrite Hp1, Hp2).
  destruct H as (ps & st1 & -> & _ & _ & Hp1 & Hp2 & _).
  unfold displaySuggestions. rewrite render_cards_Pokemon, length_map.
  destruct ps; cbn; eexists; (split; [reflexivity|]); cbn; by rewrite Hp1, Hp2.
Qed.

Lemma string_append_assoc (s t u : string) : (s ++ t) ++ u = s ++ t ++ u.
Proof.
  induction s as [|c s IH]; [done|].
  change (String c ((s ++ t) ++ u) = String c (s ++ t ++ u)). by rewrite IH.
Qed.

(** X16: Typing on narrows the suggestions: the names that match a longer query
    are among those that match its beginning, in the same order. *)
Theorem matchingNames_narrows (query more : string) (results : list string) :
  matchingNames (query ++ more) results =
    matchingNames (query ++ more) (matchingNames query results).
Proof.
  unfold matchingNames.
  induction results as [|name rest IH]; [done|]. cbn [List.filter].
  destruct (includes (toLowerCase name) (toLowerCase (query ++ more))) eqn:Hlong.
  - assert (Hshort : includes (toLowerCase name) (toLowerCase query) = true).
    { apply includes_spec. apply includes_spec in Hlong as (before & after & H).
      rewrite toLowerCase_app in H.
      exists before, (toLowerCase more ++ after).
      rewrite H. by rewrite string_append_assoc. }
    rewrite Hshort. cbn [List.filter]. by rewrite Hlong, IH.
  - destruct (includes (toLowerCase name) (toLowerCase query)); [|done].
    cbn [List.filter]. by rewrite Hlong.
Qed.

End Batches.

(** * Beyond the claims: invariants of the cache and of the page *)

Section Invariants.

Variable net : nat -> string -> AxiosResult.

Lemma known_mono st st' p :
  (allocated st <= allocated st')%nat -> known st p -> known st' p.
Proof. intros Hle [Hhp Href]. split; [done | lia]. Qed.

Lemma value_ok_mono st st' v :
  (allocated st <= allocated st')%nat -> value_ok st v -> value_ok st' v.
Proof. destruct v; cbn; eauto using known_mono. Qed.

Lemma node_ok_mono st st' node :
  (allocated st <= allocated st')%nat -> node_ok st node -> node_ok st' node.
Proof. destruct node; cbn; eauto using known_mono. Qed.

Lemma grows_refl st : grows st st.
Proof. by split. Qed.

Lemma grows_trans st1 st2 st3 : grows st1 st2 -> grows st2 st3 -> grows st1 st3.
Proof. intros [H1 H2] [H3 H4]. split; [by etransitivity | lia]. Qed.

Lemma state_inv_initial : state_inv initial.
Proof. split; cbn; try done; intros *; by rewrite lookup_empty. Qed.

(** The invariant survives any step that leaves the cache alone, forgets no
    object, and puts only known cards on the page. *)
Lemma state_inv_frame st st' :
  state_inv st ->
  pokemonCache st' = pokemonCache st ->
  (allocated st <= allocated st')%nat ->
  Forall (node_ok st') (innerHTML (pokemonContainer st')) ->
  Forall (node_ok st') (innerHTML (suggestionsContainer st')) ->
  state_inv st'.
Proof.
  intros [Hk Hd Hr Hs] Hc Ha Hr' Hs'. split; try done; rewrite Hc.
  - intros key p Hp. destruct (Hk key p Hp) as [Hg Hkn].
    split; [done|]. by eapply known_mono.
  - done.
Qed.

Lemma Forall_node_ok_mono st st' nodes :
  (allocated st <= allocated st')%nat ->
  Forall (node_ok st) nodes -> Forall (node_ok st') nodes.
Proof.
  intros Hle H. eapply Forall_impl; [exact H|]. intros node. by apply node_ok_mono.
Qed.

(** The invariant survives a step that changes neither the page nor the
    cache. *)
Lemma state_inv_same st st' :
  state_inv st ->
  pokemonCache st' = pokemonCache st ->
  (allocated st <= allocated st')%nat ->
  same_page st st' ->
  state_inv st'.
Proof.
  intros Hinv Hc Ha (_ & Hr & Hs).
  apply (state_inv_frame st st' Hinv Hc Ha); rewrite ?Hr, ?Hs;
    eapply Forall_node_ok_mono; try done; apply Hinv.
Qed.

Lemma answer_fields_hp_ok r p : answer_fields r = Some (fields p) -> hp_ok p.
Proof.
  destruct r as [[d | results | members] | e]; cbn; try done.
  destruct (find is_hp (d_stats d)) as [stat|] eqn:Hfind; [|done].
  unfold fields, hp_ok. intros [= _ _ _ _ <- <-]. by rewrite Hfind.
Qed.

(** The continuation of [fetchPokemon], for a key it may store under. *)
Lemma resume_inv key r st c st' :
  fetchPokemon_resume key r st = (c, st') ->
  good_key key ->
  state_inv st ->
  state_inv st' /\
  (allocated st <= allocated st')%nat /\
  same_page st st' /\
  (forall m : gmap string Pokemon,
     m ⊆ pokemonCache st -> m !! key = None -> m ⊆ pokemonCache st') /\
  (forall k, is_Some (pokemonCache st !! k) -> is_Some (pokemonCache st' !! k)) /\
  match c with
  | Normal (VPokemon p) => known st' p /\ pokemonCache st' !! key = Some p
  | Normal VNull => True
  | _ => False
  end.
Proof.
  intros Hrun Hkey Hinv.
  pose proof (fetchPokemon_resume_spec key r st) as Hspec.
  destruct (answer_fields r) as [f|] eqn:Hans.
  - destruct Hspec as (p & Heq & Hf & Href). rewrite Heq in Hrun.
    injection Hrun as <- <-. subst f.
    assert (Hknown : known (set_pokemonCache (<[key:=p]> (pokemonCache st))
                              (set_allocated (S (allocated st)) st)) p).
    { split; [by eapply answer_fields_hp_ok | cbn; lia]. }
    split_and!; cbn; try done; try lia.
    + destruct Hinv as [Hk Hd Hr Hs]. split; cbn.
      * intros k q. destruct (decide (key = k)) as [<-|Hne].
        -- rewrite lookup_insert_eq. by intros [= <-].
        -- rewrite lookup_insert_ne by done. intros Hq.
           destruct (Hk k q Hq) as [Hg Hkn]. split; [done|].
           eapply known_mono; [|exact Hkn]. cbn. lia.
      * intros k1 k2 p1 p2.
        destruct (decide (key = k1)) as [<-|Hne1];
          destruct (decide (key = k2)) as [<-|Hne2]; try done.
        -- rewrite lookup_insert_eq, lookup_insert_ne by done.
           intros [= <-] Hp2 Heq'. destruct (Hk _ _ Hp2) as [_ [_ Hlt]]. lia.
        -- rewrite lookup_insert_eq, lookup_insert_ne by done.
           intros Hp1 [= <-] Heq'. destruct (Hk _ _ Hp1) as [_ [_ Hlt]]. lia.
        -- rewrite !lookup_insert_ne by done. apply Hd.
      * eapply Forall_node_ok_mono; [|exact Hr]. cbn. lia.
      * eapply Forall_node_ok_mono; [|exact Hs]. cbn. lia.
    + intros m Hm Hnone. by apply insert_subseteq_r.
    + intros k Hk. destruct (decide (key = k)) as [<-|Hne].
      * rewrite lookup_insert_eq. by eexists.
      * by rewrite lookup_insert_ne.
    + apply lookup_insert_eq.
  - destruct Hspec as (st1 & Heq & Hc & Hreq & Hpage). rewrite Heq in Hrun.
    injection Hrun as <- <-.
    assert (Ha : (allocated st <= allocated st1)%nat).
    { clear -Heq. revert Heq.
      unfold fetchPokemon_resume, fetchPokemon_catch, try_catch, bind, new_Pokemon.
      destruct r as [[d | results | members] | [status | | ]]; cbn;
        repeat (match goal with
                | |- context [find ?f ?l] => destruct (find f l)
                | |- context [if ?b then _ else _] => destruct b
                end; cbn);
        intros [= <-]; cbn; lia. }
    split_and!; try done.
    + by apply (state_inv_same st st1).
    + intros m Hm _. by rewrite Hc.
    + intros k. by rewrite Hc.
Qed.

(** The part of [fetchPokemon] before its [await]. *)
Lemma begin_inv x st :
  state_inv st ->
  pokemonCache (snd (fetchPokemon_begin x st)) = pokemonCache st /\
  allocated (snd (fetchPokemon_begin x st)) = allocated st /\
  same_page st (snd (fetchPokemon_begin x st)) /\
  match fst (fetchPokemon_begin x st) with
  | Done (Normal (VPokemon p)) => pokemonCache st !! cache_key x = Some p
  | Done (Normal _) => True
  | Done _ => False
  | Waiting key _ =>
      key = cache_key x /\ good_key key /\ pokemonCache st !! key = None
  end.
Proof.
  intros Hinv. unfold fetchPokemon_begin, cache_get.
  rewrite cache_key_not_a_method.
  destruct (pokemonCache st !! cache_key x) as [p|] eqn:Hp; cbn; [done|].
  destruct (String.eqb_spec (cache_key x) "constructor") as [Hc|Hc]; cbn; [done|].
  destruct (String.eqb_spec (cache_key x) "__proto__") as [Hpr|Hpr]; cbn; [done|].
  split_and!; try done. split; [apply has_upper_toLowerCase | done].
Qed.

Lemma slot_ok_mono st0 st st' name s :
  (allocated st <= allocated st')%nat ->
  (forall k, is_Some (pokemonCache st !! k) -> is_Some (pokemonCache st' !! k)) ->
  slot_ok st0 st name s -> slot_ok st0 st' name s.
Proof.
  intros Ha Hc. destruct s as [[[| |p| | |]|e|]|key req]; cbn; try done.
  intros [Hk Hs]. split; [by eapply known_mono | by apply Hc].
Qed.

Lemma launched_ok st names : forall req,
  state_inv st ->
  Forall2 (slot_ok st st) names (launched (pokemonCache st) req names).
Proof.
  intros req Hinv. revert req.
  induction names as [|name rest IH]; intros req; cbn [launched]; [constructor|].
  pose proof (begin_inv (Str name) st Hinv) as (_ & _ & _ & Hslot).
  unfold fetchPokemon_begin, cache_key in Hslot. cbn [String_of] in Hslot.
  destruct (truthy (cache_get (pokemonCache st) (toLowerCase name))) eqn:Hhit;
    cbn in Hslot; constructor; try apply IH.
  - destruct (cache_get (pokemonCache st) (toLowerCase name)) eqn:Hv; cbn; try done.
    split; [|by eexists]. by apply (inv_keys _ Hinv _ _ Hslot).
  - exact Hslot.
Qed.

Lemma deliver_ok st0 names i b st :
  batch_ok st0 names b st ->
  batch_ok st0 names (fst (deliver net i b st)) (snd (deliver net i b st)).
Proof.
  intros (Hinv & [Hsub Halloc] & Hpage & Hslots). unfold deliver.
  destruct (slots b !! i) as [[c|key req]|] eqn:Hi; cbn; try done.
  destruct (Forall2_lookup_r _ _ _ _ _ Hslots Hi) as (name & Hname & Hok).
  cbn in Hok. destruct Hok as (Hkey & Hgood & Hnone).
  destruct (fetchPokemon_resume key (net req (POKEAPI_URL ++ key)) st) as [c st'] eqn:Hrun.
  destruct (resume_inv key _ st c st' Hrun Hgood Hinv)
    as (Hinv' & Ha & Hp & Hm & Hsome & Hc).
  cbn. split_and!; try done.
  - split; [by apply Hm | lia].
  - by eapply same_page_trans.
  - rewrite <- (list_insert_id _ _ _ Hname). apply Forall2_insert.
    + eapply Forall2_impl; [exact Hslots|]. intros n s. by apply slot_ok_mono.
    + destruct c as [[| |p| | |]|e|]; cbn; try done.
      destruct Hc as [Hk Hl]. split; [done|]. rewrite <- Hkey. by eexists.
Qed.

Lemma arrivals_ok st0 names order : forall b st,
  batch_ok st0 names b st ->
  batch_ok st0 names (fst (arrivals net order b st)) (snd (arrivals net order b st)).
Proof.
  induction order as [|i rest IH]; intros b st Hok; cbn [arrivals].
  - by destruct (joined b).
  - destruct (joined b); [done|].
    pose proof (deliver_ok st0 names i b st Hok) as Hok1.
    destruct (deliver net i b st) as [b1 st1]. by apply IH.
Qed.

(** The batch [Promise.all] ends with: its slots hold the values. *)
Lemma Promise_all_batch order names st vs st' :
  Promise_all net order names st = (Normal vs, st') ->
  fst (batch_run net order names st) =
    {| slots := map (fun v => Done (Normal v)) vs;
       joined := Some (Normal vs) |} /\
  snd (batch_run net order names st) = st'.
Proof.
  unfold Promise_all, batch_run, batch_of. rewrite launch_spec.
  set (slots0 := launched (pokemonCache st) (length (requests st)) names).
  set (st1 := set_requests _ st).
  set (b0 := {| slots := slots0; joined := join slots0 |}).
  assert (Hinv0 : batch_inv net slots0 b0) by (apply batch_inv_start, launched_well).
  destruct (arrivals_inv net slots0 (order ++ seq 0 (length names)) b0 st1 Hinv0)
    as ([Hfrom Hwell Hjoin] & _).
  destruct (arrivals net (order ++ seq 0 (length names)) b0 st1) as [b st2].
  cbn [fst snd] in *. destruct b as [sl j]. cbn in *. subst j.
  rewrite join_well by done.
  destruct (all_fulfilled sl) as [ws|] eqn:Hall; cbn; [|done].
  intros [= -> ->]. by apply all_fulfilled_Some in Hall as ->.
Qed.

Lemma Forall2_map_values {A} (P : A -> Slot -> Prop) (l : list A) : forall vs,
  Forall2 P l (map (fun v => Done (Normal v)) vs) ->
  Forall2 (fun x v => P x (Done (Normal v))) l vs.
Proof.
  induction l as [|x l IH]; intros [|v vs] H; cbn in H; inversion H; subst;
    constructor; auto.
Qed.

Lemma slots_values_ok st0 st names vs :
  Forall2 (fun name v => slot_ok st0 st name (Done (Normal v))) names vs ->
  Forall (value_ok st) vs.
Proof.
  induction 1 as [|name v names vs Hv _ IH]; constructor; [|done].
  destruct v; cbn in *; tauto.
Qed.

(** A batch keeps the invariant, keeps the cache entries there were, leaves
    the page alone, yields only known objects, and has cached every name it
    yields a [Pokemon] for. *)
Lemma Promise_all_inv order names st :
  state_inv st ->
  exists vs st',
    Promise_all net order names st = (Normal vs, st') /\
    state_inv st' /\ grows st st' /\ same_page st st' /\
    Forall (value_ok st') vs /\
    Forall2 (fun name v =>
               instanceof_Pokemon v = true ->
               is_Some (pokemonCache st' !! toLowerCase name)) names vs.
Proof.
  intros Hinv.
  destruct (Promise_all_spec net order names st) as (vs & st' & Heq & _).
  exists vs, st'. split; [done|].
  destruct (Promise_all_batch order names st vs st' Heq) as [Hb Hst].
  assert (Hok : batch_ok st names (fst (batch_run net order names st))
                                  (snd (batch_run net order names st))).
  { unfold batch_run, batch_of. rewrite launch_spec. apply arrivals_ok.
    set (st1 := set_requests _ st).
    assert (Hinv1 : state_inv st1) by (by apply (state_inv_same st st1)).
    refine (conj Hinv1 (conj (grows_refl st) (conj _ _))); [done|].
    cbn. eapply Forall2_impl; [by apply launched_ok|].
    intros n s. by apply slot_ok_mono. }
  rewrite Hb, Hst in Hok. destruct Hok as (Hinv' & Hg & Hp & Hslots).
  cbn in Hslots. apply Forall2_map_values in Hslots.
  split_and!; try done; [by eapply slots_values_ok|].
  eapply Forall2_impl; [exact Hslots|].
  intros name [| |p| | |]; cbn; try done. by intros [Hk Hs].
Qed.

Lemma Forall_List_filter {A} (P : A -> Prop) (f : A -> bool) l :
  Forall P l -> Forall P (List.filter f l).
Proof.
  induction 1 as [|x l Hx _ IH]; cbn; [constructor|].
  destruct (f x); [by constructor | done].
Qed.

Lemma render_cards_ok st items : forall cards,
  Forall (value_ok st) items ->
  render_cards items = Normal cards ->
  Forall (node_ok st) cards.
Proof.
  induction items as [|v items IH]; intros cards Hok; cbn.
  - intros [= <-]. constructor.
  - apply Forall_cons in Hok as [Hv Hrest].
    destruct v as [| |p| | |]; try done.
    destruct (render_cards items) as [rest| |]; try done.
    intros [= <-]. constructor; [done | by apply IH].
Qed.

(** A step that writes to the page only, and only known cards. *)
Lemma state_inv_page st st' :
  state_inv st ->
  pokemonCache st' = pokemonCache st ->
  allocated st' = allocated st ->
  Forall (node_ok st) (innerHTML (pokemonContainer st')) ->
  Forall (node_ok st) (innerHTML (suggestionsContainer st')) ->
  state_inv st' /\ grows st st'.
Proof.
  intros Hinv Hc Ha Hr Hs. split.
  - apply (state_inv_frame st st' Hinv Hc); [lia | |];
      eapply Forall_node_ok_mono; try eassumption; lia.
  - split; [by rewrite Hc | lia].
Qed.

Lemma displayPokemon_inv items st :
  state_inv st -> Forall (value_ok st) items ->
  state_inv (snd (displayPokemon items st)) /\ grows st (snd (displayPokemon items st)).
Proof.
  intros Hinv Hok. unfold displayPokemon.
  destruct (render_cards items) as [cards| |] eqn:Hcards; cbn [snd];
    apply state_inv_page; cbn; try done; try apply Hinv.
  by eapply render_cards_ok.
Qed.

Lemma displaySuggestions_inv items st :
  state_inv st -> Forall (value_ok st) items ->
  state_inv (snd (displaySuggestions items st)) /\
  grows st (snd (displaySuggestions items st)).
Proof.
  intros Hinv Hok. unfold displaySuggestions.
  destruct (length items =? 0)%nat; [apply state_inv_page; cbn; try done; apply Hinv|].
  destruct (render_cards items) as [cards| |] eqn:Hcards; cbn [snd];
    apply state_inv_page; cbn; try done; try apply Hinv.
  by eapply render_cards_ok.
Qed.

Lemma message_in_results_inv m st :
  state_inv st ->
  state_inv (snd (message_in_results m st)) /\ grows st (snd (message_in_results m st)).
Proof.
  intros Hinv. apply state_inv_page; cbn; try done; [by repeat constructor | apply Hinv].
Qed.

Lemma hide_suggestions_inv st :
  state_inv st ->
  state_inv (snd (hide_suggestions st)) /\ grows st (snd (hide_suggestions st)).
Proof. intros Hinv. apply state_inv_page; cbn; try done. apply Hinv. Qed.

Lemma set_searchInput_inv v st :
  state_inv st ->
  state_inv (set_searchInput v st) /\ grows st (set_searchInput v st).
Proof. intros Hinv. apply state_inv_page; cbn; try done; apply Hinv. Qed.

Lemma resetSearch_inv st :
  state_inv st -> state_inv (resetSearch st) /\ grows st (resetSearch st).
Proof. intros Hinv. by apply state_inv_page. Qed.

(** [fetchPokemon] keeps the invariant and yields a known object. *)
Lemma fetchPokemon_inv x st :
  state_inv st ->
  exists v st',
    fetchPokemon net x st = (Normal v, st') /\
    state_inv st' /\ grows st st' /\ same_page st st' /\ value_ok st' v.
Proof.
  intros Hinv. unfold fetchPokemon.
  pose proof (begin_inv x st Hinv) as (Hc & Ha & Hp & Hslot).
  destruct (fetchPokemon_begin x st) as [slot st1]. cbn [fst snd] in *.
  assert (Hinv1 : state_inv st1) by (apply (state_inv_same st st1); try done; lia).
  destruct slot as [[v|e|]|key req]; try done.
  - exists v, st1. split_and!; try done.
    + split; [by rewrite Hc | lia].
    + destruct v; try done. cbn. eapply known_mono; [|by apply (inv_keys _ Hinv _ _ Hslot)]. lia.
  - destruct Hslot as (Hkey & Hgood & Hnone).
    destruct (fetchPokemon_resume key (net req (POKEAPI_URL ++ key)) st1) as [c st'] eqn:Hrun.
    destruct (resume_inv key _ st1 c st' Hrun Hgood Hinv1)
      as (Hinv' & Ha' & Hp' & Hm & _ & Hv).
    assert (Hg : grows st st').
    { split; [|lia]. apply Hm; [by rewrite Hc | done]. }
    destruct c as [[| |p| | |]|e|]; try done.
    + exists VNull, st'. split_and!; try done. by eapply same_page_trans.
    + exists (VPokemon p), st'. split_and!; try done; [by eapply same_page_trans | apply Hv].
Qed.

Lemma grows_same st st' :
  pokemonCache st' = pokemonCache st -> (allocated st <= allocated st')%nat -> grows st st'.
Proof. intros Hc Ha. split; [by rewrite Hc | done]. Qed.

(** The list [fetchSuggestions] hands to the display. *)
Lemma validSuggestions_inv order query st :
  state_inv st ->
  state_inv (snd (validSuggestions net order query st)) /\
  grows st (snd (validSuggestions net order query st)) /\
  match fst (validSuggestions net order query st) with
  | Normal vs => Forall (value_ok (snd (validSuggestions net order query st))) vs
  | _ => True
  end.
Proof.
  intros Hinv. unfold validSuggestions, bind, axios_get.
  set (st0 := set_requests (requests st ++ [index_url]) st).
  assert (Hinv0 : state_inv st0) by (by apply (state_inv_same st st0)).
  destruct (net (length (requests st)) index_url) as [[d | results | members] | e];
    cbn; try (split_and!; try done; by apply grows_same).
  destruct (Promise_all_inv order (matchingNames query results) st0 Hinv0)
    as (vs & st1 & -> & Hinv1 & Hg & _ & Hvs & _).
  cbn. split_and!; try done.
  by apply Forall_List_filter.
Qed.

Lemma fetchSuggestions_inv order query st :
  state_inv st ->
  state_inv (snd (fetchSuggestions net order query st)) /\
  grows st (snd (fetchSuggestions net order query st)).
Proof.
  intros Hinv. unfold fetchSuggestions.
  destruct (is_empty query); [by apply hide_suggestions_inv|].
  unfold try_catch, bind.
  pose proof (validSuggestions_inv order query st Hinv) as (Hinv1 & Hg1 & Hvs).
  destruct (validSuggestions net order query st) as [[vs|e|] st1]; cbn [fst snd] in *.
  - pose proof (displaySuggestions_inv vs st1 Hinv1 Hvs) as [Hinv2 Hg2].
    destruct (displaySuggestions vs st1) as [[[]|e|] st2]; cbn [fst snd] in *.
    + split; [done | by eapply grows_trans].
    + cbn.
      match goal with |- state_inv ?s /\ _ =>
        assert (H : state_inv s /\ grows st2 s)
          by (apply state_inv_page; cbn; try done;
              first [apply Hinv2 | by repeat constructor])
      end.
      destruct H as [H1 H2]. split; [done|].
      eapply grows_trans; [|exact H2]. by eapply grows_trans.
    + split; [done | by eapply grows_trans].
  - cbn.
    match goal with |- state_inv ?s /\ _ =>
      assert (H : state_inv s /\ grows st1 s)
        by (apply state_inv_page; cbn; try done;
            first [apply Hinv1 | by repeat constructor])
    end.
    destruct H as [H1 H2]. split; [done | by eapply grows_trans].
  - done.
Qed.

Lemma searchPokemons_rest_inv v st :
  state_inv st -> value_ok st v ->
  state_inv (snd (searchPokemons_rest v st)) /\ grows st (snd (searchPokemons_rest v st)).
Proof.
  intros Hinv Hv. unfold searchPokemons_rest, bind.
  destruct (truthy v).
  - pose proof (displayPokemon_inv [v] st Hinv (Forall_cons_2 _ _ _ Hv (Forall_nil_2 _)))
      as [Hinv1 Hg1].
    destruct (displayPokemon [v] st) as [[[]|e|] st1]; cbn [fst snd] in *; try done.
    destruct (hide_suggestions_inv st1 Hinv1) as [Hinv2 Hg2].
    split; [done | by eapply grows_trans].
  - destruct (message_in_results_inv NotFound st Hinv) as [Hinv1 Hg1].
    destruct (hide_suggestions_inv _ Hinv1) as [Hinv2 Hg2].
    split; [done | by eapply grows_trans].
Qed.

Lemma searchPokemons_unfold q st :
  searchPokemons net q st =
    if is_empty q then (message_in_results PleaseType ;; hide_suggestions)%js st
    else (pokemon <- fetchPokemon net (Str q) ;; searchPokemons_rest pokemon)%js st.
Proof. unfold searchPokemons. by destruct (is_empty q). Qed.

Lemma searchPokemons_inv q st :
  state_inv st ->
  state_inv (snd (searchPokemons net q st)) /\ grows st (snd (searchPokemons net q st)).
Proof.
  intros Hinv. rewrite searchPokemons_unfold. destruct (is_empty q).
  - destruct (message_in_results_inv PleaseType st Hinv) as [Hinv1 Hg1].
    destruct (hide_suggestions_inv _ Hinv1) as [Hinv2 Hg2].
    split; [done | by eapply grows_trans].
  - unfold bind.
    destruct (fetchPokemon_inv (Str q) st Hinv) as (v & st1 & -> & Hinv1 & Hg1 & _ & Hv).
    destruct (searchPokemons_rest_inv v st1 Hinv1 Hv) as [Hinv2 Hg2].
    split; [done | by eapply grows_trans].
Qed.

Lemma filterClick_inv order type st :
  state_inv st ->
  state_inv (snd (filterClick net order type st)) /\
  grows st (snd (filterClick net order type st)).
Proof.
  intros Hinv.
  unfold filterClick, try_catch, bind, modify, hide_suggestions, axios_get, log.
  cbn -[displayPokemon message_in_results Nat.ltb Promise_all].
  set (st0 := set_requests _ _).
  assert (H0 : state_inv st0 /\ grows st st0)
    by (apply state_inv_page; cbn; try done; apply Hinv).
  destruct H0 as [Hinv0 Hg0].
  assert (Herr : forall st1, state_inv st1 -> grows st st1 ->
            state_inv (snd (message_in_results ErrorLoadingType
                              (set_console (console st1 ++ [ErrorType]) st1))) /\
            grows st (snd (message_in_results ErrorLoadingType
                              (set_console (console st1 ++ [ErrorType]) st1)))).
  { intros st1 Hinv1 Hg1.
    assert (H1 : state_inv (set_console (console st1 ++ [ErrorType]) st1))
      by (by apply (state_inv_same st1)).
    destruct (message_in_results_inv ErrorLoadingType _ H1) as [H2 H3].
    split; [done|]. eapply grows_trans; [exact Hg1|].
    eapply grows_trans; [|exact H3]. by apply grows_same. }
  destruct (net (length (requests st)) (type_url type)) as [[d | results | members] | e];
    cbn -[displayPokemon message_in_results Nat.ltb Promise_all];
    try by apply (Herr st0).
  destruct (Promise_all_inv order (pokemonNamesForType members) st0 Hinv0)
    as (vs & st1 & -> & Hinv1 & Hg1 & _ & Hvs & _).
  assert (Hfilter : Forall (value_ok st1) (List.filter instanceof_Pokemon vs))
    by (by apply Forall_List_filter).
  assert (Hg : grows st st1) by (by eapply grows_trans).
  destruct (0 <? length (List.filter instanceof_Pokemon vs))%nat.
  - destruct (displayPokemon_inv _ st1 Hinv1 Hfilter) as [Hinv2 Hg2].
    destruct (displayPokemon (List.filter instanceof_Pokemon vs) st1)
      as [[[]|e|] st2]; cbn [fst snd] in *.
    + split; [done | by eapply grows_trans].
    + apply Herr; [done | by eapply grows_trans].
    + split; [done | by eapply grows_trans].
  - destruct (message_in_results_inv (NoneForType type) st1 Hinv1) as [Hinv2 Hg2].
    destruct (message_in_results (NoneForType type) st1) as [[[]|e|] st2] eqn:Hm;
      cbn [fst snd] in *; split; try done; by eapply grows_trans.
Qed.

(** Every listener keeps the invariant and the entries of the cache. *)
Lemma handle_inv st ev :
  state_inv st -> state_inv (handle net st ev) /\ grows st (handle net st ev).
Proof.
  intros Hinv. unfold handle. destruct ev as [value order | | | type order | ]; cbn [listener].
  - unfold bind, modify. cbn.
    destruct (set_searchInput_inv value st Hinv) as [Hinv0 Hg0].
    destruct (fetchSuggestions_inv order (trim value) _ Hinv0) as [Hinv1 Hg1].
    split; [done | by eapply grows_trans].
  - by apply searchPokemons_inv.
  - by apply searchPokemons_inv.
  - by apply filterClick_inv.
  - cbn. by apply resetSearch_inv.
Qed.

Lemma cardClick_search (pokemon : Pokemon) (st : State) :
  cardClick net pokemon st =
    snd (searchPokemons net (pk_name pokemon)
           (snd (hide_suggestions (set_searchInput (pk_name pokemon) st)))).
Proof.
  unfold cardClick. rewrite searchPokemons_unfold.
  destruct (is_empty (pk_name pokemon)); [reflexivity|].
  unfold bind, fetchPokemon, fetchPokemon_begin. cbn [pokemonCache set_searchInput
    hide_suggestions modify snd set_suggestionsContainer requests].
  destruct (truthy (cache_get (pokemonCache st) (cache_key (Str (pk_name pokemon)))));
    [reflexivity|].
  match goal with
  | |- context [fetchPokemon_resume ?k ?r ?s1] =>
      match goal with
      | |- _ = snd (let (_, _) := fetchPokemon_resume _ _ ?s2 in _) =>
          change s2 with s1; destruct (fetchPokemon_resume k r s1) as [[v|e|] st4]
      end
  end; reflexivity.
Qed.

Lemma searchPokemons_page q st :
  suggestionsContainer st = {| innerHTML := []; display := none |} ->
  suggestionsContainer (snd (searchPokemons net q st))
    = {| innerHTML := []; display := none |} /\
  searchInput_value (snd (searchPokemons net q st)) = searchInput_value st.
Proof.
  intros Hs. rewrite searchPokemons_unfold. destruct (is_empty q); [done|].
  unfold bind.
  destruct (fetchPokemon_normal net (Str q) st) as (v & st1 & -> & Hp1 & _ & Hp3).
  unfold searchPokemons_rest, bind, displayPokemon.
  destruct (truthy v); [|by cbn].
  destruct (render_cards [v]) as [cards|e|]; cbn; by rewrite ?Hp1, ?Hp3, ?Hs.
Qed.

Lemma cardClick_page (pokemon : Pokemon) (st : State) :
  suggestionsContainer (cardClick net pokemon st)
    = {| innerHTML := []; display := none |} /\
  searchInput_value (cardClick net pokemon st) = pk_name pokemon.
Proof.
  rewrite cardClick_search.
  destruct (searchPokemons_page (pk_name pokemon)
              (snd (hide_suggestions (set_searchInput (pk_name pokemon) st)))) as [H1 H2];
    [done|]. by rewrite H1, H2.
Qed.

(** X17: The click on a card amounts to hiding the suggestions and then
    searching for the name on the card: that the listener does not wait for
    the search makes no difference to the page it ends with. *)
Theorem cardClick_as_search (pokemon : Pokemon) (st : State) :
  cardClick net pokemon st =
    snd (searchPokemons net (pk_name pokemon)
           (snd (hide_suggestions (set_searchInput (pk_name pokemon) st)))).
Proof. apply cardClick_search. Qed.

(** X18: After a click on a card the suggestions are empty and hidden and the
    search input holds the name on the card, whatever the search gives,
    even when showing the result throws. *)
Theorem cardClick_hides_suggestions (pokemon : Pokemon) (st : State) :
  suggestionsContainer (cardClick net pokemon st)
    = {| innerHTML := []; display := none |} /\
  searchInput_value (cardClick net pokemon st) = pk_name pokemon.
Proof. apply cardClick_page. Qed.

Lemma act_inv st a :
  state_inv st -> state_inv (act net st a) /\ grows st (act net st a).
Proof.
  intros Hinv. destruct a as [ev|i]; cbn [act]; [by apply handle_inv|].
  destruct (innerHTML (suggestionsContainer st) !! i) as [[p|m]|];
    try (split; [done | apply grows_refl]).
  rewrite cardClick_search.
  destruct (set_searchInput_inv (pk_name p) st Hinv) as [H1 G1].
  destruct (hide_suggestions_inv _ H1) as [H2 G2].
  destruct (searchPokemons_inv (pk_name p) _ H2) as [H3 G3].
  split; [exact H3|].
  exact (grows_trans _ _ _ (grows_trans _ _ _ G1 G2) G3).
Qed.

Lemma foldl_act_inv actions : forall st,
  state_inv st ->
  state_inv (foldl (act net) st actions) /\ grows st (foldl (act net) st actions).
Proof.
  induction actions as [|a rest IH]; intros st Hinv; cbn [foldl].
  - split; [done | apply grows_refl].
  - destruct (act_inv st a Hinv) as [H1 G1].
    destruct (IH _ H1) as [H2 G2]. split; [done | by eapply grows_trans].
Qed.

Lemma session_inv actions : state_inv (session net actions).
Proof. apply foldl_act_inv, state_inv_initial. Qed.


(** X20: Every [Pokemon] in the cache or on a card of the page has the [hp] of
    the first of its stats named "hp": none without such a stat is ever
    kept or shown. *)
Theorem entities_have_hp (actions : list Action) (p : Pokemon) :
  (exists key, pokemonCache (session net actions) !! key = Some p) \/
  shown (session net actions) p ->
  hp_ok p.
Proof.
  pose proof (session_inv actions) as [Hk _ Hr Hs].
  intros [[key Hp] | [Hin | Hin]].
  - by apply (Hk key p Hp).
  - rewrite Forall_forall in Hr. by apply (Hr _ Hin).
  - rewrite Forall_forall in Hs. by apply (Hs _ Hin).
Qed.

(** X21: The keys of the cache have no capital letter and are never
    [constructor] or [__proto__]. *)
Theorem cache_keys_normalized (actions : list Action) (key : string) (p : Pokemon) :
  pokemonCache (session net actions) !! key = Some p ->
  toLowerCase key = key /\ key <> "constructor" /\ key <> "__proto__".
Proof.
  intros Hp. destruct (inv_keys _ (session_inv actions) key p Hp) as [(Hup & Hc & Hpr) _].
  split_and!; try done.
  clear -Hup. induction key as [|c key IH]; [done|]. cbn in *.
  apply orb_false_iff in Hup as [Hc Hrest]. rewrite (IH Hrest).
  unfold lower_ascii. by rewrite Hc.
Qed.

(** X22: Two different keys of the cache never hold the same object. *)
Theorem cache_slots_hold_distinct_objects
    (actions : list Action) (k1 k2 : string) (p1 p2 : Pokemon) :
  pokemonCache (session net actions) !! k1 = Some p1 ->
  pokemonCache (session net actions) !! k2 = Some p2 ->
  k1 <> k2 ->
  ref p1 <> ref p2.
Proof.
  intros H1 H2 Hne Href. apply Hne.
  by apply (inv_distinct _ (session_inv actions) k1 k2 p1 p2).
Qed.

(** X10: A batch warms the cache: every name it yields a [Pokemon] for can be
    resolved afterwards without a request. *)
Theorem batch_warms_cache (actions : list Action) (order : list nat) (names : list string) :
  exists vs st',
    Promise_all net order names (session net actions) = (Normal vs, st') /\
    Forall2 (fun name v =>
               if instanceof_Pokemon v
               then exists q, fetchPokemon net (Str name) st' = (Normal (VPokemon q), st')
               else True) names vs.
Proof.
  destruct (Promise_all_inv order names _ (session_inv actions))
    as (vs & st' & Heq & _ & _ & _ & _ & Hwarm).
  exists vs, st'. split; [done|].
  eapply Forall2_impl; [exact Hwarm|].
  intros name v H. cbn beta in H. destruct (instanceof_Pokemon v); [|done].
  destruct (H eq_refl) as [q Hq]. exists q.
  rewrite fetchPokemon_cached; unfold cache_key; cbn [String_of];
    by rewrite (cache_get_own _ _ _ Hq).
Qed.

Lemma act_at_most_one st a :
  index_always_arrives net -> at_most_one st -> at_most_one (act net st a).
Proof.
  intros Hnet Hone. destruct a as [ev|i]; cbn [act].
  - apply handle_at_most_one; [done|].
    destruct ev; cbn; try done. right. apply Hnet.
  - destruct (innerHTML (suggestionsContainer st) !! i) as [[p|m]|]; try done.
    intros [_ Hs]. unfold suggestions_visible in Hs.
    destruct (cardClick_page p st) as [H _]. by rewrite H in Hs.
Qed.

(** X23: As long as the listing endpoint answers, the results and the
    suggestions are never shown together, whatever the user does and
    whatever the detail and membership requests give. *)
Theorem session_at_most_one (actions : list Action) :
  index_always_arrives net -> at_most_one (session net actions).
Proof.
  intros Hnet. unfold session.
  assert (H : forall st, at_most_one st -> at_most_one (foldl (act net) st actions)).
  { induction actions as [|a rest IH]; intros st Hone; cbn [foldl]; [done|].
    by apply IH, act_at_most_one. }
  apply H. intros [H1 _]. discriminate H1.
Qed.

(** X8: A search for [constructor] or [__proto__] never reaches the catalog:
    the cache object answers with what it inherits, [displayPokemon] empties
    the results and then throws, and the suggestions stay as they were. *)
Theorem search_inherited_name (actions : list Action) :
  search_key (session net actions) = "constructor" \/
  search_key (session net actions) = "__proto__" ->
  exists st',
    listener net SearchClick (session net actions) = (Throw ETypeError, st') /\
    pokemonContainer st' = fill [] (pokemonContainer (session net actions)) /\
    suggestionsContainer st' = suggestionsContainer (session net actions) /\
    requests st' = requests (session net actions).
Proof.
  pose proof (session_inv actions) as Hinv.
  set (st := session net actions) in *. intros Hkey.
  assert (Hnone : pokemonCache st !! search_key st = None).
  { destruct (pokemonCache st !! search_key st) as [p|] eqn:Hp; [|done].
    destruct (inv_keys _ Hinv _ _ Hp) as [(_ & Hc & Hpr) _]. by destruct Hkey. }
  rewrite (SearchClick_unfold net st), searchPokemons_unfold.
  assert (Hne : is_empty (search_key st) = false) by (by destruct Hkey as [-> | ->]).
  rewrite Hne. unfold bind.
  rewrite fetchPokemon_cached; rewrite cache_key_search_key; unfold cache_get;
    rewrite Hnone; destruct Hkey as [-> | ->]; cbn; try done; by eexists.
Qed.

End Invariants.

(** * The further properties on the sample catalog *)

Section MoreSamples.

Lemma fetchPokemon_ignores_case_witness :
  equal_ignoring_case "Pikachu" "pIKACHU" /\
  exists p st1,
    fetchPokemon catalog (Str "Pikachu") initial = (Normal (VPokemon p), st1) /\
    fetchPokemon catalog (Str "pIKACHU") st1 = (Normal (VPokemon p), st1).
Proof.
  assert (H1 : uncached initial (Str "Pikachu")) by (vm_compute; reflexivity).
  assert (H2 : answer_fields
                 (catalog (length (requests initial)) (detail_url (Str "Pikachu")))
               = Some (fields (pikachu_object 0)))
    by (vm_compute; reflexivity).
  assert (H3 : equal_ignoring_case "Pikachu" "pIKACHU")
    by (apply toLowerCase_equal_ignoring_case; vm_compute; reflexivity).
  split; [exact H3|].
  exact (fetchPokemon_ignores_case catalog "Pikachu" "pIKACHU" initial _ H1 H2 H3).
Defined.

Lemma search_blank_input_witness :
  blank (searchInput_value (set_searchInput "   " initial)) = true /\
  exists st',
    listener catalog SearchClick (set_searchInput "   " initial) = (Normal tt, st') /\
    pokemonContainer st' = {| innerHTML := [Para PleaseType]; display := flex |} /\
    requests st' = [].
Proof.
  assert (H : blank (searchInput_value (set_searchInput "   " initial)) = true)
    by reflexivity.
  split; [exact H|].
  destruct (search_blank_input catalog (set_searchInput "   " initial) H)
    as (st' & Ha & Hb & _ & Hc & _).
  exists st'. split; [exact Ha|]. split; [exact Hb | exact Hc].
Defined.

Lemma search_found_witness :
  search_key (set_searchInput "  Pikachu " initial) = "pikachu" /\
  exists p st',
    listener catalog SearchClick (set_searchInput "  Pikachu " initial) = (Normal tt, st') /\
    pokemonContainer st' = {| innerHTML := [Card p]; display := flex |} /\
    requests st' = [POKEAPI_URL ++ "pikachu"].
Proof.
  assert (H0 : search_key (set_searchInput "  Pikachu " initial) = "pikachu")
    by (vm_compute; reflexivity).
  assert (H1 : blank (searchInput_value (set_searchInput "  Pikachu " initial)) = false)
    by reflexivity.
  assert (H2 : uncached (set_searchInput "  Pikachu " initial)
                 (Str (search_key (set_searchInput "  Pikachu " initial))))
    by (vm_compute; reflexivity).
  assert (H3 : answer_fields
                 (catalog (length (requests (set_searchInput "  Pikachu " initial)))
                    (search_url (set_searchInput "  Pikachu " initial)))
               = Some (fields (pikachu_object 0)))
    by (vm_compute; reflexivity).
  split; [exact H0|].
  destruct (search_found catalog (set_searchInput "  Pikachu " initial) _ H1 H2 H3)
    as (p & st' & Ha & _ & Hb & _ & _ & Hc & _).
  exists p, st'. split; [exact Ha|]. split; [exact Hb|].
  rewrite Hc. vm_compute. reflexivity.
Defined.

Lemma search_not_found_witness :
  blank "missingno" = false /\
  exists st',
    listener catalog SearchClick (set_searchInput "missingno" initial) = (Normal tt, st') /\
    pokemonContainer st' = {| innerHTML := [Para NotFound]; display := flex |} /\
    pokemonCache st' = ∅.
Proof.
  assert (H1 : blank (searchInput_value (set_searchInput "missingno" initial)) = false)
    by reflexivity.
  assert (H2 : uncached (set_searchInput "missingno" initial)
                 (Str (search_key (set_searchInput "missingno" initial))))
    by (vm_compute; reflexivity).
  assert (H3 : answer_fields
                 (catalog (length (requests (set_searchInput "missingno" initial)))
                    (search_url (set_searchInput "missingno" initial))) = None)
    by (vm_compute; reflexivity).
  split; [exact H1|].
  destruct (search_not_found catalog (set_searchInput "missingno" initial) H1 H2 H3)
    as (st' & Ha & Hb & _ & Hc & _).
  exists st'. split; [exact Ha|]. split; [exact Hb | exact Hc].
Defined.

Lemma search_cached_witness :
  pokemonCache after_search !! search_key after_search = Some (pikachu_object 0) /\
  exists st',
    listener catalog SearchClick after_search = (Normal tt, st') /\
    pokemonContainer st' = {| innerHTML := [Card (pikachu_object 0)]; display := flex |} /\
    requests st' = requests after_search.
Proof.
  assert (H1 : blank (searchInput_value after_search) = false) by (vm_compute; reflexivity).
  assert (H2 : pokemonCache after_search !! search_key after_search
               = Some (pikachu_object 0))
    by (vm_compute; reflexivity).
  split; [exact H2|].
  destruct (search_cached catalog after_search _ H1 H2) as (st' & Ha & Hb & _ & _ & Hc & _).
  exists st'. split; [exact Ha|]. split; [exact Hb | exact Hc].
Defined.

Lemma pokemonNamesForType_short_witness :
  (length ["charmander"; "vulpix"] <= 151)%nat /\
  pokemonNamesForType ["charmander"; "vulpix"] = ["charmander"; "vulpix"].
Proof.
  assert (H : (length ["charmander"; "vulpix"] <= 151)%nat) by (simpl; lia).
  split; [exact H|]. exact (pokemonNamesForType_short _ H).
Defined.

Lemma filterClick_membership_failure_witness :
  catalog 0 (type_url "water") = Failed (ErrResponse 404) /\
  exists st',
    filterClick catalog [] "water" initial = (Normal tt, st') /\
    pokemonContainer st' = {| innerHTML := [Para ErrorLoadingType]; display := flex |} /\
    requests st' = [type_url "water"].
Proof.
  assert (H0 : catalog 0 (type_url "water") = Failed (ErrResponse 404))
    by (vm_compute; reflexivity).
  assert (H : forall members,
            catalog (length (requests initial)) (type_url "water")
            <> Resolved (TypePayload members))
    by (intros members; change (length (requests initial)) with 0%nat;
        rewrite H0; discriminate).
  split; [exact H0|].
  destruct (filterClick_membership_failure catalog [] "water" initial H)
    as (st' & Ha & Hb & Hc & _).
  exists st'. split; [exact Ha|]. split; [exact Hb | exact Hc].
Defined.


Lemma entities_have_hp_witness :
  shown (session catalog searched_pikachu) (pikachu_object 0) /\
  hp_ok (pikachu_object 0).
Proof.
  assert (H : shown (session catalog searched_pikachu) (pikachu_object 0)).
  { left. vm_compute. apply list_elem_of_here. }
  split; [exact H|].
  exact (entities_have_hp catalog searched_pikachu _ (or_intror H)).
Defined.

Lemma cache_keys_normalized_witness :
  pokemonCache (session catalog searched_both) !! "25" = Some (pikachu_object 0) /\
  toLowerCase "25" = "25".
Proof.
  assert (H : pokemonCache (session catalog searched_both) !! "25"
              = Some (pikachu_object 0))
    by (vm_compute; reflexivity).
  split; [exact H|].
  exact (proj1 (cache_keys_normalized catalog searched_both "25" _ H)).
Defined.

Lemma cache_slots_hold_distinct_objects_witness :
  pokemonCache (session catalog searched_both) !! "25" = Some (pikachu_object 0) /\
  pokemonCache (session catalog searched_both) !! "pikachu" = Some (pikachu_object 1) /\
  ref (pikachu_object 0) <> ref (pikachu_object 1).
Proof.
  assert (H1 : pokemonCache (session catalog searched_both) !! "25"
               = Some (pikachu_object 0))
    by (vm_compute; reflexivity).
  assert (H2 : pokemonCache (session catalog searched_both) !! "pikachu"
               = Some (pikachu_object 1))
    by (vm_compute; reflexivity).
  assert (H3 : "25" <> "pikachu") by discriminate.
  split; [exact H1|]. split; [exact H2|].
  exact (cache_slots_hold_distinct_objects catalog searched_both "25" "pikachu" _ _ H1 H2 H3).
Defined.

Lemma session_at_most_one_witness :
  index_always_arrives catalog /\
  at_most_one
    (session catalog (searched_both ++ [Fire (FilterClick "fire" [1; 0]%nat); CardClick 0])).
Proof.
  assert (H : index_always_arrives catalog)
    by (intros n; exists sample_index; vm_compute; reflexivity).
  split; [exact H|].
  exact (session_at_most_one catalog _ H).
Defined.

Lemma search_inherited_name_witness :
  search_key (session catalog [Fire (InputEvent " Constructor" [])]) = "constructor" /\
  exists st',
    listener catalog SearchClick (session catalog [Fire (InputEvent " Constructor" [])])
      = (Throw ETypeError, st').
Proof.
  assert (H : search_key (session catalog [Fire (InputEvent " Constructor" [])])
              = "constructor")
    by (vm_compute; reflexivity).
  split; [exact H|].
  destruct (search_inherited_name catalog [Fire (InputEvent " Constructor" [])] (or_introl H))
    as (st' & Ha & _).
  exists st'. exact Ha.
Defined.

End MoreSamples.
